(** * Pairwise Euclidean distances with NumPy loops and broadcasting

    A shallow embedding of the functions of the notebook
    [2dv516-python-2-part-1-broadcasting.ipynb]: the element-wise products
    [mult_vect] / [mult_loop] and the four distance-matrix implementations
    [loop1], [loop2], [broadcast1], [broadcast2] together with [eucl_dist].

    - NumPy arrays are nested lists: a 1-D array is a [list F], a 2-D array a
      list of rows, a 3-D array a list of 2-D arrays.
    - Python exceptions are values of an error monad ([IndexError] for an
      index out of range, [ValueError] for shapes that do not broadcast or
      do not reshape).
    - The scalar arithmetic of the element type is an interface ([NumPy F]);
      it is instantiated with IEEE-754 binary64 numbers (NumPy's [float64],
      the element type of every array the notebook builds).  The power
      [** 2] is two operations: on an array NumPy squares each element, on
      a single number (as in [eucl_dist]) it calls the C library's [pow].
    - The real numbers are a second instance: exact arithmetic, which the
      code does not compute in, is the reference that [float64] results are
      compared with. *)

From Stdlib Require Import ZArith Reals Lra Lia Floats.
From stdpp Require Import list.

(** ** Exceptions *)

Inductive exn : Type :=
  | IndexError
  | ValueError.

Inductive result (A : Type) : Type :=
  | Ok (a : A)
  | Raise (e : exn).
Arguments Ok {A} a.
Arguments Raise {A} e.

Definition bind {A B} (m : result A) (k : A -> result B) : result B :=
  match m with
  | Ok a => k a
  | Raise e => Raise e
  end.

Notation "x <- m ;; k" := (bind m (fun x => k))
  (at level 100, m at next level, right associativity).

Definition raises {A} (m : result A) : Prop := exists e, m = Raise e.

(** ** The element type and the NumPy primitives the notebook calls *)

Class NumPy (F : Type) : Type := {
  zero : F;
  sub : F -> F -> F;          (* [a - b] *)
  mul : F -> F -> F;          (* [a * b] *)
  pow2 : F -> F;              (* [a ** 2], element by element of an array *)
  pow2_scalar : F -> F;       (* [a ** 2] of a single number *)
  np_sum : list F -> F;       (* [np.sum] of a 1-D array *)
  np_sqrt : F -> F;           (* [np.sqrt] of a scalar *)
  uninit : nat -> F           (* what [np.empty] leaves in a fresh cell *)
}.

Section Arrays.
Context {F : Type} `{NumPy F}.

(** [np.empty(n)] and [np.empty((n, m))]: fresh arrays of unspecified
    content. *)
Definition np_empty1 (n : nat) : list F := map uninit (seq 0 n).
Definition np_empty2 (n m : nat) : list (list F) :=
  map (fun i => map (fun j => uninit (i * m + j)) (seq 0 m)) (seq 0 n).

(** [X.shape] of a 2-D array.  An array without rows is the empty list: its
    number of columns is not represented and reads as 0. *)
Definition shape (X : list (list F)) : nat * nat :=
  (length X, match X with [] => 0 | r :: _ => length r end).

(** [a[i]] and [a[i] = v], for [i] coming from a [range]. *)
Definition getitem {A} (a : list A) (i : nat) : result A :=
  match a !! i with
  | Some x => Ok x
  | None => Raise IndexError
  end.

Definition setitem {A} (a : list A) (i : nat) (v : A) : result (list A) :=
  if decide (i < length a) then Ok (<[i := v]> a) else Raise IndexError.

(** [Z[i, j] = v]. *)
Definition setitem2 (Z : list (list F)) (i j : nat) (v : F)
  : result (list (list F)) :=
  row <- getitem Z i ;;
  row' <- setitem row j v ;;
  setitem Z i row'.

(** [Z[i] = r] for a 1-D array [r]: [r] is broadcast to the row's shape. *)
Definition setrow (Z : list (list F)) (i : nat) (r : list F)
  : result (list (list F)) :=
  row <- getitem Z i ;;
  if decide (length r = length row) then setitem Z i r
  else match r with
       | [v] => setitem Z i (replicate (length row) v)
       | _ => Raise ValueError
       end.

(** [for i in idx: s = body i s]. *)
Fixpoint for_in {S} (idx : list nat) (body : nat -> S -> result S) (s : S)
  : result S :=
  match idx with
  | [] => Ok s
  | i :: idx' => s' <- body i s ;; for_in idx' body s'
  end.

Definition range (n : nat) : list nat := seq 0 n.

Fixpoint mapM {A B} (f : A -> result B) (l : list A) : result (list B) :=
  match l with
  | [] => Ok []
  | x :: l' => y <- f x ;; ys <- mapM f l' ;; Ok (y :: ys)
  end.

Fixpoint zipM {A B C} (f : A -> B -> result C) (xs : list A) (ys : list B)
  : result (list C) :=
  match xs, ys with
  | x :: xs', y :: ys' => z <- f x y ;; zs <- zipM f xs' ys' ;; Ok (z :: zs)
  | _, _ => Ok []
  end.

(** One axis of NumPy's broadcasting rule: the two lengths are equal, or
    one of them is 1 and that operand is repeated; anything else is a
    [ValueError]. *)
Definition broadcast {A B C} (f : A -> B -> result C)
    (xs : list A) (ys : list B) : result (list C) :=
  if decide (length xs = length ys) then zipM f xs ys
  else match xs, ys with
       | [x], _ => mapM (f x) ys
       | _, [y] => mapM (fun x => f x y) xs
       | _, _ => Raise ValueError
       end.

(** [a - b] for arrays of 1, 2 and 3 dimensions. *)
Definition sub1 : list F -> list F -> result (list F) :=
  broadcast (fun a b => Ok (sub a b)).
Definition sub2 : list (list F) -> list (list F) -> result (list (list F)) :=
  broadcast sub1.
Definition sub3 : list (list (list F)) -> list (list (list F))
    -> result (list (list (list F))) :=
  broadcast sub2.

(** [a * b] for 1-D arrays. *)
Definition mul1 : list F -> list F -> result (list F) :=
  broadcast (fun a b => Ok (mul a b)).

(** [X.reshape(a, b, c)] of a 2-D array: the cells in row-major order are
    regrouped; the number of cells must not change. *)
Definition reshape3 (X : list (list F)) (a b c : nat)
  : result (list (list (list F))) :=
  let flat := concat X in
  if decide (length flat = a * b * c)
  then Ok (map (reshape (replicate b c)) (reshape (replicate a (b * c)) flat))
  else Raise ValueError.

(** ** The notebook's functions *)

(** First benchmark cell. *)
Definition mult_vect (x y : list F) : result (list F) := mul1 x y.

Definition mult_loop (x y : list F) : result (list F) :=
  let z := np_empty1 (length x) in
  for_in (range (length x))
    (fun i z => xi <- getitem x i ;; yi <- getitem y i ;;
                setitem z i (mul xi yi))
    z.

(** The euclidean distance between two vectors, non-optimized. *)
Definition eucl_dist (x y : list F) : result F :=
  let z := np_empty1 (length x) in
  z <- for_in (range (length x))
         (fun i z => xi <- getitem x i ;; yi <- getitem y i ;;
                     setitem z i (pow2_scalar (sub xi yi)))
         z ;;
  Ok (np_sqrt (np_sum z)).

Definition loop1 (X : list (list F)) : result (list (list F)) :=
  let n := fst (shape X) in
  let Z := np_empty2 n n in
  for_in (range n)
    (fun i Z =>
       for_in (range n)
         (fun j Z => xi <- getitem X i ;; xj <- getitem X j ;;
                     v <- eucl_dist xi xj ;;
                     setitem2 Z i j v)
         Z)
    Z.

Definition loop2 (X : list (list F)) : result (list (list F)) :=
  let n := fst (shape X) in
  let Z := np_empty2 n n in
  for_in (range n)
    (fun i Z =>
       for_in (range n)
         (fun j Z => xi <- getitem X i ;; xj <- getitem X j ;;
                     d <- sub1 xi xj ;;
                     setitem2 Z i j (np_sqrt (np_sum (map pow2 d))))
         Z)
    Z.

(** [X[i] - X]: the row, of shape [(d,)], is seen as an array of shape
    [(1, d)] and repeated along the first axis. *)
Definition broadcast1 (X : list (list F)) : result (list (list F)) :=
  let n := fst (shape X) in
  let Z := np_empty2 n n in
  for_in (range n)
    (fun i Z => xi <- getitem X i ;;
                D <- sub2 [xi] X ;;
                setrow Z i (map np_sqrt (map np_sum (map (map pow2) D))))
    Z.

Definition broadcast2 (X : list (list F)) : result (list (list F)) :=
  let '(m, n) := shape X in
  A <- reshape3 X m 1 n ;;
  B <- reshape3 X 1 m n ;;
  D <- sub3 A B ;;
  Ok (map (map np_sqrt) (map (map np_sum) (map (map (map pow2)) D))).

(** ** Well-formed inputs and the entries of a matrix *)

(** A 2-D array of shape [(n, d)]. *)
Definition rect (n d : nat) (X : list (list F)) : Prop :=
  length X = n /\ Forall (fun r => length r = d) X.

(** [M[i][j]], when both indices are in range. *)
Definition entry (M : list (list F)) (i j : nat) : option F :=
  match M !! i with
  | Some r => r !! j
  | None => None
  end.

End Arrays.

(** The second benchmark cell defines [mult_vect] and [mult_loop] again, for
    a matrix [X] of shape (n, m) and a vector [y] of shape (m,), and adds
    [mult_loop_vect]. *)
Module Rowwise.
Section Rowwise.
Context {F : Type} `{NumPy F}.

(** [X[i, j]]. *)
Definition getitem2 (X : list (list F)) (i j : nat) : result F :=
  row <- getitem X i ;; getitem row j.

(** [a * b] for 2-D arrays. *)
Definition mul2 : list (list F) -> list (list F) -> result (list (list F)) :=
  broadcast mul1.

(** [X * y]: the vector, of shape (m,), is seen as an array of shape (1, m). *)
Definition mult_vect (X : list (list F)) (y : list F)
  : result (list (list F)) :=
  mul2 X [y].

Definition mult_loop_vect (X : list (list F)) (y : list F)
  : result (list (list F)) :=
  let '(n, m) := shape X in
  let Z := np_empty2 n m in
  for_in (range n)
    (fun i Z => xi <- getitem X i ;; r <- mul1 xi y ;; setrow Z i r)
    Z.

Definition mult_loop (X : list (list F)) (y : list F)
  : result (list (list F)) :=
  let '(n, m) := shape X in
  let Z := np_empty2 n m in
  for_in (range n)
    (fun i Z =>
       for_in (range m)
         (fun j Z => xij <- getitem2 X i j ;; yj <- getitem y j ;;
                     setitem2 Z i j (mul xij yj))
         Z)
    Z.

End Rowwise.
End Rowwise.

(** ** The two element types *)

(** Sequential summation, [((0 + a0) + a1) + ...]; NumPy adds up fewer than
    eight numbers in this order. *)
Definition sum_seq (l : list float) : float := fold_left PrimFloat.add l 0%float.

(** NumPy's [float64]: IEEE-754 binary64 with round-to-nearest-even.  On an
    array [a ** 2] is the correctly rounded square [a * a].  On a single
    number it is the C library's [pow(a, 2)], which is not part of the
    repository: it is the parameter [spow].  The reduction order of [np.sum]
    and the content of fresh arrays are left open too. *)
Definition float64_with (spow : float -> float) (sum : list float -> float)
    (junk : nat -> float) : NumPy float :=
  {| zero := 0%float;
     sub := PrimFloat.sub;
     mul := PrimFloat.mul;
     pow2 := fun a => PrimFloat.mul a a;
     pow2_scalar := spow;
     np_sum := sum;
     np_sqrt := PrimFloat.sqrt;
     uninit := junk |}.

(** [pow(a, 2)] of glibc 2.36 at the numbers this file evaluates it on.
    glibc's [pow] is accurate to less than one unit in the last place, so it
    returns the square whenever the square is a [float64]; at 2.759 and
    -2.759 it returns [0x1.e72c55c96030bp+2], the number just below the
    correctly rounded square [0x1.e72c55c96030cp+2].  At the other numbers
    whose square is not a [float64] the definition returns the rounded
    square, which glibc need not do: nothing is evaluated there. *)
Definition pow2_glibc (a : float) : float :=
  if PrimFloat.eqb (abs a) 0x1.6126e978d4fdfp+1%float
  then 0x1.e72c55c96030bp+2%float
  else PrimFloat.mul a a.

Definition float64 : NumPy float :=
  float64_with pow2_glibc sum_seq (fun _ => nan).

(** Exact arithmetic on the real numbers: what the distances would be
    without rounding, underflow and overflow. *)
Definition Rsum (l : list R) : R := fold_left Rplus l 0%R.

Definition reals_with (junk : nat -> R) : NumPy R :=
  {| zero := 0%R;
     sub := Rminus;
     mul := Rmult;
     pow2 := fun a => (a * a)%R;
     pow2_scalar := fun a => (a * a)%R;
     np_sum := Rsum;
     np_sqrt := R_sqrt.sqrt;
     uninit := junk |}.

Definition reals : NumPy R := reals_with (fun _ => 1%R).

(** ** Reference definitions, following the specification's wording *)

Section Reference.
Context {F : Type} `{NumPy F}.

(** [sqrt(sum over k in [0, d) of (x[k] - y[k])^2)]. *)
Definition spec_dist (d : nat) (x y : list F) : F :=
  np_sqrt (np_sum (map (fun k => pow2 (sub (nth k x zero) (nth k y zero)))
                       (seq 0 d))).

(** The same distance, written on the two rows. *)
Definition dist (x y : list F) : F :=
  np_sqrt (np_sum (zip_with (fun a b => pow2 (sub a b)) x y)).

(** The matrix of all pairwise distances between the rows of [X]. *)
Definition pairwise (X : list (list F)) : list (list F) :=
  map (fun xi => map (fun xj => dist xi xj) X) X.

(** The same three with the power of a single number, as [eucl_dist] and
    [loop1] compute it. *)
Definition spec_dist_scalar (d : nat) (x y : list F) : F :=
  np_sqrt (np_sum (map (fun k => pow2_scalar (sub (nth k x zero) (nth k y zero)))
                       (seq 0 d))).

Definition dist_scalar (x y : list F) : F :=
  np_sqrt (np_sum (zip_with (fun a b => pow2_scalar (sub a b)) x y)).

Definition pairwise_scalar (X : list (list F)) : list (list F) :=
  map (fun xi => map (fun xj => dist_scalar xi xj) X) X.

(** The two powers give the same number on every difference of two
    coordinates of two rows of [X]. *)
Definition powers_agree_on (X : list (list F)) : Prop :=
  forall xi xj a b, In xi X -> In xj X -> In (a, b) (zip xi xj) ->
    pow2_scalar (sub a b) = pow2 (sub a b).

End Reference.

(** ** Properties of a distance matrix *)

(** [M[i][k] <= M[i][j] + M[j][k]] for all indices below [n], for the
    comparison and the addition of the element type. *)
Definition triangle_inequality {F : Type} (le : F -> F -> Prop)
    (add : F -> F -> F) (n : nat) (M : list (list F)) : Prop :=
  forall i j k, i < n -> j < n -> k < n ->
    forall a b c, entry M i k = Some a -> entry M i j = Some b ->
                  entry M j k = Some c -> le a (add b c).

(** Python's [a <= b] on [float64] values. *)
Definition float_le (a b : float) : Prop := PrimFloat.leb a b = true.

(** Python's [a == b] on [float64] values: false when either is NaN. *)
Definition float_eq (a b : float) : Prop := PrimFloat.eqb a b = true.

(** [0 <= x]: x is not NaN and not negative. *)
Definition nonneg (x : float) : Prop := PrimFloat.leb 0%float x = true.

(** What the symmetry of the matrix asks of [np.sum]: numbers that are not
    negative do not add up to NaN or to a negative number. *)
Definition sum_keeps_nonneg (sum : list float -> float) : Prop :=
  forall l, Forall nonneg l -> nonneg (sum l).

(** The same notions on the specification of binary64 numbers. *)
Definition has_sign (s : bool) (x : spec_float) : Prop :=
  match x with
  | S754_nan => False
  | S754_zero s' | S754_infinity s' | S754_finite s' _ _ => s' = s
  end.

Definition SFnonneg (x : spec_float) : Prop :=
  match x with
  | S754_zero _ | S754_infinity false | S754_finite false _ _ => True
  | _ => False
  end.

Definition SFfin (x : spec_float) : Prop :=
  match x with
  | S754_zero _ | S754_finite _ _ _ => True
  | _ => False
  end.

(** The real number that a finite [float64] stands for. *)
Definition SF2R (x : spec_float) : R :=
  match x with
  | S754_finite s m e => (IZR (cond_Zopp s (Zpos m)) * powerRZ 2 e)%R
  | _ => 0%R
  end.

Definition F2R (x : float) : R := SF2R (Prim2SF x).

(** The [float64] [v] is finite and is exactly the real number [r]. *)
Definition represents (v : float) (r : R) : Prop :=
  is_finite v = true /\ F2R v = r.

(** A dataset of finite numbers (no infinity, no NaN). *)
Definition all_finite (D : list (list float)) : Prop :=
  Forall (Forall (fun a => is_finite a = true)) D.

Definition sqdiff (a b : R) : R := ((a - b) * (a - b))%R.

(** The distance between two rows of [float64] numbers in exact arithmetic. *)
Definition exact_dist (x y : list float) : R :=
  @dist R reals (map F2R x) (map F2R y).

(** The three entries of [M] that the triangle inequality at [(i, j, k)]
    compares, and the sum [M[i][j] + M[j][k]], carry no rounding error: each
    is finite and is the number that exact arithmetic gives. *)
Definition computed_exactly (D M : list (list float)) (i j k : nat) : Prop :=
  exists xi xj xk a b c,
    D !! i = Some xi /\ D !! j = Some xj /\ D !! k = Some xk
    /\ entry M i k = Some a /\ entry M i j = Some b /\ entry M j k = Some c
    /\ represents a (exact_dist xi xk)
    /\ represents b (exact_dist xi xj)
    /\ represents c (exact_dist xj xk)
    /\ represents (PrimFloat.add b c) (F2R b + F2R c)%R.

(** ** Datasets used as examples *)

(** The scenario [[0,0],[3,4]] of the specification. *)
Definition two_points : list (list float) := [[0; 0]; [3; 4]]%float.

Definition two_points_real : list (list R) := [[0; 0]; [3; 4]]%R.

(** The single-row dataset [[0,0]]. *)
Definition single_row : list (list float) := [[0; 0]]%float.
Definition single_row_real : list (list R) := [[0; 0]]%R.

(** The matrix of shape (3, 2) and the vector of shape (3,) of the cell that
    fails to broadcast. *)
Definition tall_matrix : list (list float) := [[1; 4]; [2; 5]; [3; 6]]%float.
Definition three_numbers : list float := [1; 5; 10]%float.

(** The scenario [[0],[1],[3]] of the specification. *)
Definition line_points : list (list float) := [[0]; [1]; [3]]%float.

(** The two points 2.759 and 3.74 away from the origin along the axes: the
    C library's [pow(2.759, 2)] is not the rounded square. *)
Definition last_bit_points : list (list float) :=
  [[0; 0]; [0x1.6126e978d4fdfp+1; 0x1.deb851eb851ecp+1]]%float.

(** Three points on a line whose squared distance overflows: [2^512]
    squared is beyond the largest [float64]. *)
Definition overflow_points : list (list float) :=
  [[0]; [0x1p+511]; [0x1p+512]]%float.

(** Three points on a line whose differences round: [1 + 2^-52] minus
    [2^-56] rounds up to [1 + 2^-52], minus [9 * 2^-56] rounds down to 1. *)
Definition rounding_points : list (list float) :=
  [[0x1.0000000000001p+0]; [0x1.2p-53]; [0x1p-56]]%float.

(** Three points on a line whose squared distances underflow:
    [2^-538] squared is below half of the smallest subnormal number
    [2^-1074], while [2^-537] squared is exactly [2^-1074]. *)
Definition underflow_points : list (list float) :=
  [[0]; [0x1p-538]; [0x1p-537]]%float.

(** ** The cells that explain broadcasting *)

(** Three cells add a vector [y] to a matrix [X]: [X + y] (twice, once with
    shapes that do not broadcast) and [X + y.reshape(-1, 1)].  The addition
    of the element type is a parameter. *)
Section Cells.
Context {F : Type}.
Variable add : F -> F -> F.

(** [a + b] for arrays of 1 and 2 dimensions. *)
Definition add1 : list F -> list F -> result (list F) :=
  broadcast (fun a b => Ok (add a b)).
Definition add2 : list (list F) -> list (list F) -> result (list (list F)) :=
  broadcast add1.

(** [y.reshape(-1, 1)]: the dimension left open is the number of cells, so
    the reshape always succeeds. *)
Definition reshape_column (y : list F) : result (list (list F)) :=
  Ok (reshape (replicate (length y) 1) y).

(** [X + y]: the vector, of shape (k,), is seen as an array of shape (1, k). *)
Definition plus_row (X : list (list F)) (y : list F)
  : result (list (list F)) :=
  add2 X [y].

(** [X + y.reshape(-1, 1)]. *)
Definition plus_column (X : list (list F)) (y : list F)
  : result (list (list F)) :=
  col <- reshape_column y ;; add2 X col.

End Cells.

(** ** Loops that fill an array *)

Section Loops.
Context {F : Type} `{NumPy F}.

Lemma getitem_Some {A} (a : list A) i x : a !! i = Some x -> getitem a i = Ok x.
Proof. unfold getitem. intros ->. reflexivity. Qed.

Lemma setitem_lt {A} (a : list A) i v :
  i < length a -> setitem a i v = Ok (<[i := v]> a).
Proof. unfold setitem. intros Hi. case_decide; [done | lia]. Qed.

(** A loop over [seq a k] that keeps an invariant. *)
Lemma for_in_seq_inv {S} (P : nat -> S -> Prop) (body : nat -> S -> result S) :
  forall k a s,
    P a s ->
    (forall i s', a <= i < a + k -> P i s' ->
                  exists s'', body i s' = Ok s'' /\ P (Datatypes.S i) s'') ->
    exists s', for_in (seq a k) body s = Ok s' /\ P (a + k) s'.
Proof.
  induction k as [|k IH]; intros a s HP Hstep; simpl.
  - exists s. split; [done|]. by replace (a + 0) with a by lia.
  - destruct (Hstep a s) as (s1 & Hb & HP1); [lia | done |].
    rewrite Hb. simpl.
    destruct (IH (Datatypes.S a) s1 HP1) as (s2 & Hf & HP2).
    + intros i s' Hi. apply Hstep. lia.
    + exists s2. split; [done|].
      by replace (a + Datatypes.S k) with (Datatypes.S a + k) by lia.
Qed.

(** Writing cell [j] after the cells before it. *)
Lemma fill_step {A} (g : nat -> A) (l : list A) j :
  j < length l ->
  <[j := g j]> (map g (seq 0 j) ++ drop j l)
  = map g (seq 0 (Datatypes.S j)) ++ drop (Datatypes.S j) l.
Proof.
  intros Hj.
  destruct (lookup_lt_is_Some_2 l j Hj) as [x Hx].
  rewrite (drop_S l x j Hx).
  rewrite insert_app_r_alt by (rewrite length_map, length_seq; lia).
  rewrite length_map, length_seq, Nat.sub_diag, seq_S, map_app.
  simpl. by rewrite <- app_assoc.
Qed.

(** [for i in range(n): a[i] = g i] overwrites the whole array. *)
Lemma fill_array {A} (g : nat -> A) (body : nat -> list A -> result (list A))
    (a0 : list A) n :
  length a0 = n ->
  (forall i a, i < n -> length a = n -> body i a = Ok (<[i := g i]> a)) ->
  for_in (range n) body a0 = Ok (map g (seq 0 n)).
Proof.
  intros Hlen Hbody.
  destruct (for_in_seq_inv
              (fun i a => a = map g (seq 0 i) ++ drop i a0) body n 0 a0)
    as (a & Hfor & Ha).
  - by rewrite drop_0.
  - intros i a Hi ->. eexists. split.
    + apply Hbody; [lia|].
      rewrite length_app, length_map, length_seq, length_drop. lia.
    + apply fill_step. lia.
  - unfold range. rewrite Hfor, Ha. simpl.
    rewrite drop_ge by lia. by rewrite app_nil_r.
Qed.

Lemma setitem2_row (Z : list (list F)) i j v row :
  Z !! i = Some row -> j < length row ->
  setitem2 Z i j v = Ok (<[i := <[j := v]> row]> Z).
Proof.
  intros Hrow Hj. unfold setitem2.
  rewrite (getitem_Some _ _ _ Hrow). simpl.
  rewrite setitem_lt by done. simpl.
  apply setitem_lt. by eapply lookup_lt_Some.
Qed.

(** [for j in range(n): Z[i, j] = g j] overwrites row [i] and nothing else. *)
Lemma fill_row (g : nat -> F) (body : nat -> list (list F) -> result (list (list F)))
    (Z0 : list (list F)) (row0 : list F) i n :
  Z0 !! i = Some row0 -> length row0 = n ->
  (forall j Z, j < n -> body j Z = setitem2 Z i j (g j)) ->
  for_in (range n) body Z0 = Ok (<[i := map g (seq 0 n)]> Z0).
Proof.
  intros Hrow Hlen Hbody.
  pose proof (lookup_lt_Some _ _ _ Hrow) as Hi.
  destruct (for_in_seq_inv
              (fun j Z => Z = <[i := map g (seq 0 j) ++ drop j row0]> Z0)
              body n 0 Z0)
    as (Z & Hfor & HZ).
  - rewrite drop_0. simpl. symmetry. by apply list_insert_id.
  - intros j Z Hj ->. eexists. split.
    + rewrite Hbody by lia. apply setitem2_row.
      * by apply list_lookup_insert_eq.
      * rewrite length_app, length_map, length_seq, length_drop. lia.
    + rewrite list_insert_insert_eq. f_equal. apply fill_step. lia.
  - unfold range. rewrite Hfor, HZ. simpl.
    rewrite drop_ge by lia. by rewrite app_nil_r.
Qed.

Lemma np_empty2_rect n m : rect n m (np_empty2 n m).
Proof.
  unfold rect, np_empty2. split.
  - by rewrite length_map, length_seq.
  - apply Forall_forall. intros r Hr.
    apply list_elem_of_fmap in Hr as (i & -> & _).
    by rewrite length_map, length_seq.
Qed.

Lemma rect_lookup n d (X : list (list F)) i :
  rect n d X -> i < n -> exists r, X !! i = Some r /\ length r = d.
Proof.
  intros [Hn Hd] Hi.
  destruct (lookup_lt_is_Some_2 X i) as [r Hr]; [lia|].
  exists r. split; [done|].
  rewrite Forall_forall in Hd. apply Hd. by eapply list_elem_of_lookup_2.
Qed.

(** [for i in range(n): Z[i] = g i] on a fresh matrix of shape (n, m): the
    row that is overwritten is still a row of the fresh matrix. *)
Lemma fill_rows (g : nat -> list F)
    (body : nat -> list (list F) -> result (list (list F)))
    (Z0 : list (list F)) n m :
  rect n m Z0 ->
  (forall i Z row, i < n -> Z !! i = Some row -> length row = m ->
                   body i Z = Ok (<[i := g i]> Z)) ->
  for_in (range n) body Z0 = Ok (map g (seq 0 n)).
Proof.
  intros HZ0 Hbody.
  destruct (for_in_seq_inv
              (fun i Z => Z = map g (seq 0 i) ++ drop i Z0) body n 0 Z0)
    as (Z & Hfor & HZ).
  - by rewrite drop_0.
  - intros i Z Hi ->.
    destruct (rect_lookup _ _ _ i HZ0) as (row0 & Hrow0 & Hlen0); [lia|].
    eexists. split.
    + apply (Hbody i _ row0); [lia | | done].
      rewrite lookup_app_r by (rewrite length_map, length_seq; lia).
      rewrite length_map, length_seq, Nat.sub_diag, lookup_drop.
      by rewrite Nat.add_0_r.
    + apply fill_step. destruct HZ0 as [-> _]. lia.
  - unfold range. rewrite Hfor, HZ. simpl.
    rewrite drop_ge by (destruct HZ0 as [-> _]; lia).
    by rewrite app_nil_r.
Qed.

(** The double loop of [loop1] and [loop2]: every cell [(i, j)] of the
    fresh matrix is overwritten. *)
Lemma fill_matrix (g : nat -> nat -> F)
    (cell : nat -> nat -> list (list F) -> result (list (list F)))
    (Z0 : list (list F)) n m :
  rect n m Z0 ->
  (forall i j Z, i < n -> j < m -> cell i j Z = setitem2 Z i j (g i j)) ->
  for_in (range n) (fun i Z => for_in (range m) (fun j Z' => cell i j Z') Z) Z0
  = Ok (map (fun i => map (g i) (seq 0 m)) (seq 0 n)).
Proof.
  intros HZ0 Hcell.
  apply (fill_rows (fun i => map (g i) (seq 0 m)) _ Z0 n m HZ0).
  intros i Z row Hi Hrow Hlen.
  apply (fill_row (g i) _ Z row i m Hrow Hlen).
  intros j Z' Hj. by apply Hcell.
Qed.

(** [for i in range(n): a[i] = f(x[i])] is a [map]. *)
Lemma tabulate_nth {A B} (h : A -> B) (X : list A) (dflt : A) :
  map (fun i => h (nth i X dflt)) (seq 0 (length X)) = map h X.
Proof.
  apply list_eq. intros i. rewrite !list_lookup_fmap.
  destruct (decide (i < length X)) as [Hi|Hi].
  - rewrite lookup_seq_lt by done. simpl.
    destruct (lookup_lt_is_Some_2 X i Hi) as [x Hx].
    rewrite Hx. simpl. by rewrite nth_lookup, Hx.
  - rewrite lookup_seq_ge by lia.
    by rewrite lookup_ge_None_2 by lia.
Qed.

Lemma tabulate_zip {A B C} (f : A -> B -> C) (x : list A) (y : list B) dx dy :
  length x <= length y ->
  map (fun i => f (nth i x dx) (nth i y dy)) (seq 0 (length x)) = zip_with f x y.
Proof.
  intros Hlen. apply list_eq. intros i.
  rewrite list_lookup_fmap, lookup_zip_with.
  destruct (decide (i < length x)) as [Hi|Hi].
  - rewrite lookup_seq_lt by done. simpl.
    destruct (lookup_lt_is_Some_2 x i Hi) as [a Ha].
    destruct (lookup_lt_is_Some_2 y i) as [b Hb]; [lia|].
    rewrite Ha, Hb. simpl. by rewrite !nth_lookup, Ha, Hb.
  - rewrite lookup_seq_ge by lia.
    by rewrite (lookup_ge_None_2 x) by lia.
Qed.

(** *** Broadcasting *)

Lemma zipM_pure {A B C} (f : A -> B -> C) (xs : list A) (ys : list B) :
  zipM (fun a b => Ok (f a b)) xs ys = Ok (zip_with f xs ys).
Proof.
  revert ys. induction xs as [|x xs IH]; intros [|y ys]; simpl; try done.
  by rewrite IH.
Qed.

Lemma mapM_pure {A B} (f : A -> result B) (g : A -> B) (l : list A) :
  (forall x, x ∈ l -> f x = Ok (g x)) -> mapM f l = Ok (map g l).
Proof.
  induction l as [|x l IH]; intros Hf; simpl; [done|].
  rewrite Hf by constructor. simpl.
  rewrite IH; [done|]. intros y Hy. apply Hf. by constructor.
Qed.

Lemma broadcast_same {A B C} (f : A -> B -> result C) xs ys :
  length xs = length ys -> broadcast f xs ys = zipM f xs ys.
Proof. intros Hlen. unfold broadcast. by case_decide. Qed.

Lemma broadcast_single_l {A B C} (f : A -> B -> result C) x ys :
  broadcast f [x] ys = mapM (f x) ys.
Proof.
  unfold broadcast. case_decide as Hlen; [|done].
  destruct ys as [|y [|y' ys]]; simplify_eq/=.
  by destruct (f x y).
Qed.

Lemma broadcast_single_r {A B C} (f : A -> B -> result C) xs y :
  broadcast f xs [y] = mapM (fun x => f x y) xs.
Proof.
  unfold broadcast. case_decide as Hlen.
  - destruct xs as [|x [|x' xs]]; simplify_eq/=.
    by destruct (f x y).
  - by destruct xs as [|x [|x' xs]].
Qed.

Lemma sub1_same (x y : list F) :
  length x = length y -> sub1 x y = Ok (zip_with sub x y).
Proof.
  intros Hlen. unfold sub1. rewrite broadcast_same by done. apply zipM_pure.
Qed.

Lemma map_pow2_diff (x y : list F) :
  map pow2 (zip_with sub x y) = zip_with (fun a b => pow2 (sub a b)) x y.
Proof.
  revert y. induction x as [|a x IH]; intros [|b y]; simpl; try done.
  by rewrite IH.
Qed.

(** [X[i] - X] for a row of [X]. *)
Lemma sub2_row n d (X : list (list F)) (xi : list F) :
  rect n d X -> length xi = d ->
  sub2 [xi] X = Ok (map (fun xj => zip_with sub xi xj) X).
Proof.
  intros [_ Hd] Hxi. unfold sub2. rewrite broadcast_single_l.
  apply mapM_pure. intros xj Hxj. apply sub1_same.
  rewrite Forall_forall in Hd. rewrite (Hd _ Hxj). done.
Qed.

(** *** The four implementations compute [pairwise] *)

Lemma eucl_dist_ok (x y : list F) :
  length x <= length y -> eucl_dist x y = Ok (dist_scalar x y).
Proof.
  intros Hlen. unfold eucl_dist.
  rewrite (fill_array
             (fun i => pow2_scalar (sub (nth i x zero) (nth i y zero)))).
  - simpl. unfold dist_scalar.
    by rewrite (tabulate_zip (fun a b => pow2_scalar (sub a b))
                  x y zero zero Hlen).
  - unfold np_empty1. by rewrite length_map, length_seq.
  - intros i a Hi Ha.
    destruct (lookup_lt_is_Some_2 x i Hi) as [xi Hxi].
    destruct (lookup_lt_is_Some_2 y i) as [yi Hyi]; [lia|].
    rewrite (getitem_Some _ _ _ Hxi), (getitem_Some _ _ _ Hyi). simpl.
    rewrite setitem_lt by lia.
    by rewrite !nth_lookup, Hxi, Hyi.
Qed.

Lemma tabulate_pairwise (X : list (list F)) :
  map (fun i => map (fun j => dist (nth i X []) (nth j X []))
                    (seq 0 (length X)))
      (seq 0 (length X))
  = pairwise X.
Proof.
  rewrite (tabulate_nth
             (fun xi => map (fun j => dist xi (nth j X [])) (seq 0 (length X)))).
  unfold pairwise. apply map_ext. intros xi.
  apply (tabulate_nth (dist xi)).
Qed.

Lemma tabulate_pairwise_scalar (X : list (list F)) :
  map (fun i => map (fun j => dist_scalar (nth i X []) (nth j X []))
                    (seq 0 (length X)))
      (seq 0 (length X))
  = pairwise_scalar X.
Proof.
  rewrite (tabulate_nth
             (fun xi => map (fun j => dist_scalar xi (nth j X []))
                            (seq 0 (length X)))).
  unfold pairwise_scalar. apply map_ext. intros xi.
  apply (tabulate_nth (dist_scalar xi)).
Qed.

Lemma loop1_ok n d (X : list (list F)) :
  rect n d X -> loop1 X = Ok (pairwise_scalar X).
Proof.
  intros HX. unfold loop1. simpl.
  rewrite <- tabulate_pairwise_scalar. destruct HX as [Hn Hd]. rewrite Hn.
  apply (fill_matrix (fun i j => dist_scalar (nth i X []) (nth j X []))).
  - apply np_empty2_rect.
  - intros i j Z Hi Hj.
    destruct (rect_lookup n d X i) as (xi & Hxi & Hli); [done..|].
    destruct (rect_lookup n d X j) as (xj & Hxj & Hlj); [done..|].
    rewrite (getitem_Some _ _ _ Hxi), (getitem_Some _ _ _ Hxj). simpl.
    rewrite eucl_dist_ok by lia. simpl.
    by rewrite !nth_lookup, Hxi, Hxj.
Qed.

Lemma loop2_ok n d (X : list (list F)) :
  rect n d X -> loop2 X = Ok (pairwise X).
Proof.
  intros HX. unfold loop2. simpl.
  rewrite <- tabulate_pairwise. destruct HX as [Hn Hd]. rewrite Hn.
  apply (fill_matrix (fun i j => dist (nth i X []) (nth j X []))).
  - apply np_empty2_rect.
  - intros i j Z Hi Hj.
    destruct (rect_lookup n d X i) as (xi & Hxi & Hli); [done..|].
    destruct (rect_lookup n d X j) as (xj & Hxj & Hlj); [done..|].
    rewrite (getitem_Some _ _ _ Hxi), (getitem_Some _ _ _ Hxj). simpl.
    rewrite sub1_same by lia. simpl.
    by rewrite map_pow2_diff, !nth_lookup, Hxi, Hxj.
Qed.


Lemma dist_row (xi : list F) (X : list (list F)) :
  map np_sqrt (map np_sum (map (map pow2) (map (fun xj => zip_with sub xi xj) X)))
  = map (fun xj => dist xi xj) X.
Proof.
  rewrite !map_map. apply map_ext. intros xj.
  unfold dist. by rewrite map_pow2_diff.
Qed.

Lemma broadcast1_ok n d (X : list (list F)) :
  rect n d X -> broadcast1 X = Ok (pairwise X).
Proof.
  intros HX. unfold broadcast1. simpl.
  rewrite <- tabulate_pairwise.
  rewrite (map_ext _ (fun i => map (fun xj => dist (nth i X []) xj) X))
    by (intros i; apply (tabulate_nth (dist (nth i X [])))).
  pose proof HX as [Hn Hd]. rewrite Hn.
  apply (fill_rows (fun i => map (fun xj => dist (nth i X []) xj) X) _ _ n n).
  - apply np_empty2_rect.
  - intros i Z row Hi Hrow Hlen.
    destruct (rect_lookup n d X i) as (xi & Hxi & Hli); [done..|].
    rewrite (getitem_Some _ _ _ Hxi). simpl.
    rewrite (sub2_row n d) by done. simpl.
    rewrite dist_row. unfold setrow.
    rewrite (getitem_Some _ _ _ Hrow). simpl.
    rewrite decide_True by (rewrite length_map; lia).
    rewrite setitem_lt by (by eapply lookup_lt_Some).
    by rewrite nth_lookup, Hxi.
Qed.

(** *** Reshaping *)

Lemma concat_rect_length n d (X : list (list F)) :
  rect n d X -> length (concat X) = n * d.
Proof.
  intros [<- Hd]. induction Hd as [|r X Hr _ IH]; simpl; [done|].
  rewrite length_app. lia.
Qed.

Lemma reshape_concat_rect n d (X : list (list F)) :
  rect n d X -> reshape (replicate n d) (concat X) = X.
Proof.
  intros [<- Hd]. induction Hd as [|r X Hr _ IH]; simpl; [done|].
  rewrite take_app_length' by done.
  rewrite drop_app_length' by done.
  by rewrite IH.
Qed.

Lemma reshape_single {A} (l : list A) k :
  length l = k -> reshape (replicate 1 k) l = [l].
Proof. intros <-. simpl. by rewrite firstn_all. Qed.

(** [X.reshape(m, 1, n)]: every row becomes a one-row matrix. *)
Lemma reshape3_rows m n (X : list (list F)) :
  rect m n X -> reshape3 X m 1 n = Ok (map (fun r => [r]) X).
Proof.
  intros HX. unfold reshape3.
  rewrite decide_True by (rewrite (concat_rect_length m n) by done; lia).
  replace (1 * n) with n by lia.
  rewrite (reshape_concat_rect m n) by done.
  f_equal. destruct HX as [_ Hd].
  induction Hd as [|r X Hr _ IH]; [done|].
  cbn [map]. rewrite reshape_single by done. by rewrite IH.
Qed.

(** [X.reshape(1, m, n)]: the matrix becomes the only item of a 3-D array. *)
Lemma reshape3_whole m n (X : list (list F)) :
  rect m n X -> reshape3 X 1 m n = Ok [X].
Proof.
  intros HX. unfold reshape3.
  rewrite decide_True by (rewrite (concat_rect_length m n) by done; lia).
  rewrite reshape_single by (by apply concat_rect_length).
  simpl. by rewrite (reshape_concat_rect m n).
Qed.

Lemma mapM_map {A B C} (f : B -> result C) (h : A -> B) (l : list A) :
  mapM f (map h l) = mapM (fun x => f (h x)) l.
Proof. induction l as [|x l IH]; simpl; [done|]. by rewrite IH. Qed.

Lemma shape_rect m n (X : list (list F)) :
  rect m n X -> X <> [] -> shape X = (m, n).
Proof.
  intros [Hm Hn] Hne. destruct Hn as [|r X Hr _]; [done|].
  unfold shape. by rewrite Hm, Hr.
Qed.

Lemma broadcast2_ok m n (X : list (list F)) :
  rect m n X -> broadcast2 X = Ok (pairwise X).
Proof.
  intros HX. destruct (decide (X = [])) as [->|Hne]; [done|].
  unfold broadcast2. rewrite (shape_rect m n) by done.
  rewrite (reshape3_rows m n), (reshape3_whole m n) by done.
  cbn [bind]. unfold sub3. rewrite broadcast_single_r, mapM_map.
  rewrite (mapM_pure _ (fun xi => map (fun xj => zip_with sub xi xj) X)).
  - simpl. f_equal. unfold pairwise. rewrite !map_map.
    apply map_ext. intros xi. rewrite <- dist_row. by rewrite !map_map.
  - intros xi Hxi. apply (sub2_row m n); [done|].
    destruct HX as [_ Hn]. rewrite Forall_forall in Hn. by apply Hn.
Qed.

End Loops.

(** ** Facts of binary64 arithmetic *)

Section Binary64.
Local Open Scope float_scope.

Lemma is_finite_cases (x : float) :
  is_finite x = true ->
  (exists s, Prim2SF x = S754_zero s)
  \/ (exists s m e, Prim2SF x = S754_finite s m e).
Proof.
  unfold is_finite, is_nan, is_infinity.
  rewrite !FloatAxioms.eqb_spec, abs_spec.
  destruct (Prim2SF x) as [s|s| |s m e]; intros Hfin.
  - left. by exists s.
  - destruct s; vm_compute in Hfin; discriminate.
  - vm_compute in Hfin. discriminate.
  - right. by exists s, m, e.
Qed.

(** [x - x] is [+0] for every finite [x] (it is NaN for an infinity). *)
Lemma sub_diag_finite (x : float) : is_finite x = true -> x - x = 0.
Proof.
  intros Hfin. apply Prim2SF_inj. rewrite sub_spec.
  destruct (is_finite_cases x Hfin) as [[s ->] | (s & m & e & ->)].
  - by destruct s.
  - unfold SF64sub, SFsub. by rewrite Z.sub_diag.
Qed.

Lemma binary_round_aux_opp s m e l :
  binary_round_aux prec emax (negb s) m e l
  = SFopp (binary_round_aux prec emax s m e l).
Proof.
  unfold binary_round_aux.
  destruct (shr_fexp prec emax m e l) as [mrs' e'].
  destruct (shr_fexp prec emax _ e' loc_Exact) as [mrs'' e''].
  destruct (shr_m mrs''); [done | | done].
  by destruct (e'' <=? emax - prec)%Z.
Qed.

Lemma binary_normalize_opp m e :
  binary_normalize prec emax (- m) e false
  = match m with
    | Z0 => S754_zero false
    | _ => SFopp (binary_normalize prec emax m e false)
    end.
Proof.
  destruct m as [|p|p]; simpl; [done | |].
  - unfold binary_round.
    destruct (shl_align _ _ _) as [mz ez].
    apply (binary_round_aux_opp false).
  - unfold binary_round.
    destruct (shl_align _ _ _) as [mz ez].
    by rewrite (binary_round_aux_opp true), (binary_round_aux_opp false).
Qed.

(** [b - a] is the opposite of [a - b], except that both are [+0] when the
    exact difference is zero, and both are NaN when either is. *)
Lemma SFsub_swap (x y : spec_float) :
  SF64sub y x = SFopp (SF64sub x y) \/ SF64sub y x = SF64sub x y.
Proof.
  unfold SF64sub, SFsub.
  destruct x as [sx|sx| |sx mx ex], y as [sy|sy| |sy my ey];
    try (by destruct sx, sy; simpl; auto);
    try (by destruct sx; simpl; auto);
    try (by destruct sy; simpl; auto);
    try (by simpl; rewrite ?negb_involutive; auto).
  rewrite (Z.min_comm ey ex).
  set (a := cond_Zopp sx _). set (b := cond_Zopp sy _).
  replace (b - a)%Z with (- (a - b))%Z by lia.
  rewrite binary_normalize_opp.
  destruct (a - b)%Z; simpl; auto.
Qed.

Lemma SFmul_opp_opp (x : spec_float) :
  SF64mul (SFopp x) (SFopp x) = SF64mul x x.
Proof. destruct x as [s|s| |s m e]; simpl; try done; by destruct s. Qed.

(** The squared difference does not depend on the order of the operands. *)
Lemma sq_diff_sym (a b : float) : (a - b) * (a - b) = (b - a) * (b - a).
Proof.
  apply Prim2SF_inj. rewrite !mul_spec, !sub_spec.
  destruct (SFsub_swap (Prim2SF a) (Prim2SF b)) as [-> | ->]; [|done].
  by rewrite SFmul_opp_opp.
Qed.

Lemma sum_seq_zeros k : sum_seq (replicate k 0) = 0.
Proof.
  unfold sum_seq. induction k as [|k IH]; simpl; [done|].
  change (0 + 0) with 0. exact IH.
Qed.

(** *** Rounding never produces NaN, and keeps the sign *)

Section Rounding.
Local Open Scope Z_scope.

Lemma shr_1_nonneg mrs : 0 <= shr_m mrs -> 0 <= shr_m (shr_1 mrs).
Proof.
  destruct mrs as [m r s]. simpl.
  destruct m as [|p|p]; [done | | lia].
  by destruct p.
Qed.

Lemma iter_pos_inv {A} (P : A -> Prop) (f : A -> A) :
  (forall x, P x -> P (f x)) -> forall p x, P x -> P (SpecFloat.iter_pos f p x).
Proof.
  intros Hf. induction p as [p IH|p IH|]; intros x Hx; simpl; auto.
Qed.

Lemma shr_fexp_nonneg m e l :
  0 <= m -> 0 <= shr_m (fst (shr_fexp prec emax m e l)).
Proof.
  intros Hm. unfold shr_fexp, shr.
  assert (0 <= shr_m (shr_record_of_loc m l)) as H0.
  { destruct l as [|[| |]]; done. }
  destruct (fexp prec emax (Zdigits2 m + e) - e); simpl; try done.
  by apply (iter_pos_inv (fun mrs => 0 <= shr_m mrs) shr_1 shr_1_nonneg).
Qed.

Lemma round_nearest_even_nonneg m l : 0 <= m -> 0 <= round_nearest_even m l.
Proof.
  intros Hm. unfold round_nearest_even.
  destruct l as [|[| |]]; try done; [|lia].
  destruct (Z.even m); lia.
Qed.

Lemma binary_round_aux_sign s m e l :
  0 <= m -> has_sign s (binary_round_aux prec emax s m e l).
Proof.
  intros Hm. unfold binary_round_aux.
  pose proof (shr_fexp_nonneg m e l Hm) as H1.
  destruct (shr_fexp prec emax m e l) as [mrs' e']. simpl in H1.
  pose proof (shr_fexp_nonneg _ e' loc_Exact
                (round_nearest_even_nonneg _ (loc_of_shr_record mrs') H1)) as H2.
  destruct (shr_fexp prec emax _ e' loc_Exact) as [mrs'' e'']. simpl in H2.
  destruct (shr_m mrs'') as [|p|p]; [done | | lia].
  by destruct (e'' <=? emax - prec).
Qed.

Lemma binary_round_sign s m e : has_sign s (binary_round prec emax s m e).
Proof.
  unfold binary_round. destruct (shl_align _ _ _) as [mz ez].
  by apply binary_round_aux_sign.
Qed.

Lemma binary_normalize_sign m e :
  match m with
  | Z0 => binary_normalize prec emax m e false = S754_zero false
  | Zpos _ => has_sign false (binary_normalize prec emax m e false)
  | Zneg _ => has_sign true (binary_normalize prec emax m e false)
  end.
Proof. destruct m; simpl; [done | apply binary_round_sign..]. Qed.




Lemma has_sign_false_nonneg x : has_sign false x -> SFnonneg x.
Proof. destruct x as [s|s| |s m e]; simpl; try done; by intros ->. Qed.

Lemma has_sign_not_nan s x : has_sign s x -> x <> S754_nan.
Proof. by destruct x. Qed.

Lemma SFmul_square_nonneg x : x <> S754_nan -> SFnonneg (SF64mul x x).
Proof.
  intros Hx. unfold SF64mul, SFmul.
  destruct x as [s|s| |s m e]; try done.
  - by destruct s.
  - apply has_sign_false_nonneg.
    rewrite xorb_nilpotent. by apply binary_round_aux_sign.
Qed.

Lemma SFsub_fin_not_nan x y : SFfin x -> SFfin y -> SF64sub x y <> S754_nan.
Proof.
  intros Hx Hy. unfold SF64sub, SFsub.
  destruct x as [sx|sx| |sx mx ex], y as [sy|sy| |sy my ey]; try done.
  - by destruct sx, sy.
  - pose proof (binary_normalize_sign
      (cond_Zopp sx (Z.pos (fst (shl_align mx ex (Z.min ex ey))))
       - cond_Zopp sy (Z.pos (fst (shl_align my ey (Z.min ex ey)))))
      (Z.min ex ey)) as Hn.
    simpl. destruct (_ - _) as [|p|p].
    + by rewrite Hn.
    + by eapply has_sign_not_nan.
    + by eapply has_sign_not_nan.
Qed.

Lemma SFadd_nonneg x y : SFnonneg x -> SFnonneg y -> SFnonneg (SF64add x y).
Proof.
  intros Hx Hy. unfold SF64add, SFadd.
  destruct x as [sx|[|]| |[|] mx ex], y as [sy|[|]| |[|] my ey]; try done.
  - by destruct sx, sy.
  - apply has_sign_false_nonneg. simpl. apply binary_round_sign.
Qed.

Lemma SFsqrt_nonneg x : SFnonneg x -> SFnonneg (SF64sqrt x).
Proof.
  intros Hx. unfold SF64sqrt, SFsqrt.
  destruct x as [s|[|]| |[|] m e]; try done.
  apply has_sign_false_nonneg. unfold SFsqrt_core_binary.
  destruct (Z.sqrtrem _) as [q r] eqn:Hqr.
  apply binary_round_aux_sign.
  change q with (fst (q, r)). rewrite <- Hqr, Z.sqrtrem_sqrt.
  apply Z.sqrt_nonneg.
Qed.

Lemma SFeqb_refl_nonneg x : SFnonneg x -> SFeqb x x = true.
Proof.
  destruct x as [s|[|]| |[|] m e]; try done.
  intros _. unfold SFeqb, SFcompare.
  by rewrite Z.compare_refl, Pos.compare_cont_refl.
Qed.

End Rounding.

Lemma nonneg_spec (x : float) : nonneg x <-> SFnonneg (Prim2SF x).
Proof.
  unfold nonneg. rewrite leb_spec.
  change (Prim2SF 0) with (S754_zero false).
  destruct (Prim2SF x) as [s|[|]| |[|] m e]; simpl; split; done.
Qed.

Lemma is_finite_SFfin (x : float) : is_finite x = true -> SFfin (Prim2SF x).
Proof.
  intros Hx.
  by destruct (is_finite_cases x Hx) as [[s ->] | (s & m & e & ->)].
Qed.

Lemma sq_diff_nonneg (a b : float) :
  is_finite a = true -> is_finite b = true -> nonneg ((a - b) * (a - b)).
Proof.
  intros Ha Hb. apply nonneg_spec. rewrite mul_spec, sub_spec.
  apply SFmul_square_nonneg, SFsub_fin_not_nan; by apply is_finite_SFfin.
Qed.

Lemma add_nonneg (a b : float) : nonneg a -> nonneg b -> nonneg (a + b).
Proof.
  rewrite !nonneg_spec, add_spec. apply SFadd_nonneg.
Qed.

Lemma sqrt_nonneg (a : float) : nonneg a -> nonneg (PrimFloat.sqrt a).
Proof. rewrite !nonneg_spec, sqrt_spec. apply SFsqrt_nonneg. Qed.

Lemma nonneg_eqb_refl (a : float) : nonneg a -> (a =? a) = true.
Proof.
  rewrite nonneg_spec, FloatAxioms.eqb_spec. apply SFeqb_refl_nonneg.
Qed.

Lemma sum_seq_nonneg (l : list float) : Forall nonneg l -> nonneg (sum_seq l).
Proof.
  unfold sum_seq. assert (nonneg 0) as H0 by done. revert H0.
  generalize 0. induction l as [|a l IH]; intros acc Hacc Hl; simpl; [done|].
  inversion Hl; subst. apply IH; [|done]. by apply add_nonneg.
Qed.

End Binary64.

(** ** Properties that hold for every element type *)

Section Generic.
Context {F : Type} `{NumPy F}.

Lemma pairwise_rect n d (X : list (list F)) : rect n d X -> rect n n (pairwise X).
Proof.
  intros [Hn _]. unfold rect, pairwise. split.
  - by rewrite length_map.
  - apply Forall_forall. intros r Hr.
    apply list_elem_of_fmap in Hr as (xi & -> & _).
    by rewrite length_map.
Qed.

Lemma entry_pairwise (X : list (list F)) i j xi xj :
  X !! i = Some xi -> X !! j = Some xj ->
  entry (pairwise X) i j = Some (dist xi xj).
Proof.
  intros Hi Hj. unfold entry, pairwise.
  rewrite list_lookup_fmap, Hi. simpl.
  by rewrite list_lookup_fmap, Hj.
Qed.

Lemma dist_spec_dist d (x y : list F) :
  length x = d -> d <= length y -> dist x y = spec_dist d x y.
Proof.
  intros <- Hy. unfold dist, spec_dist.
  by rewrite (tabulate_zip (fun a b => pow2 (sub a b)) x y zero zero Hy).
Qed.

Lemma dist_scalar_spec_dist d (x y : list F) :
  length x = d -> d <= length y -> dist_scalar x y = spec_dist_scalar d x y.
Proof.
  intros <- Hy. unfold dist_scalar, spec_dist_scalar.
  by rewrite (tabulate_zip (fun a b => pow2_scalar (sub a b)) x y zero zero Hy).
Qed.

Lemma zip_with_take_len {A B C} (f : A -> B -> C) (x : list A) (y : list B) :
  zip_with f x (take (length x) y) = zip_with f x y.
Proof.
  revert y. induction x as [|a x IH]; intros [|b y]; simpl; try done.
  by rewrite IH.
Qed.

Lemma mult_loop_ok (x y : list F) :
  length x <= length y -> mult_loop x y = Ok (zip_with mul x y).
Proof.
  intros Hlen. unfold mult_loop.
  rewrite (fill_array (fun i => mul (nth i x zero) (nth i y zero))).
  - by rewrite (tabulate_zip mul x y zero zero Hlen).
  - unfold np_empty1. by rewrite length_map, length_seq.
  - intros i a Hi Ha.
    destruct (lookup_lt_is_Some_2 x i Hi) as [xi Hxi].
    destruct (lookup_lt_is_Some_2 y i) as [yi Hyi]; [lia|].
    rewrite (getitem_Some _ _ _ Hxi), (getitem_Some _ _ _ Hyi). simpl.
    rewrite setitem_lt by lia.
    by rewrite !nth_lookup, Hxi, Hyi.
Qed.

Lemma mult_vect_ok (x y : list F) :
  length x = length y -> mult_vect x y = Ok (zip_with mul x y).
Proof.
  intros Hlen. unfold mult_vect, mul1.
  rewrite broadcast_same by done. apply zipM_pure.
Qed.

Lemma mul1_same (x y : list F) :
  length x = length y -> mul1 x y = Ok (zip_with mul x y).
Proof. apply mult_vect_ok. Qed.

Lemma rowwise_mult_vect_ok n m (X : list (list F)) (y : list F) :
  rect n m X -> length y = m ->
  Rowwise.mult_vect X y = Ok (map (fun row => zip_with mul row y) X).
Proof.
  intros [_ Hm] Hy. unfold Rowwise.mult_vect, Rowwise.mul2.
  rewrite broadcast_single_r. apply mapM_pure.
  intros row Hrow. apply mul1_same.
  rewrite Forall_forall in Hm. rewrite (Hm _ Hrow). done.
Qed.

Lemma rowwise_mult_loop_vect_ok n m (X : list (list F)) (y : list F) :
  rect n m X -> length y = m ->
  Rowwise.mult_loop_vect X y = Ok (map (fun row => zip_with mul row y) X).
Proof.
  intros HX Hy. destruct (decide (X = [])) as [->|Hne]; [done|].
  unfold Rowwise.mult_loop_vect. rewrite (shape_rect n m) by done.
  rewrite <- (tabulate_nth (fun row => zip_with mul row y) X []).
  pose proof HX as [Hn Hm]. rewrite Hn.
  apply (fill_rows (fun i => zip_with mul (nth i X []) y) _ _ n m).
  - apply np_empty2_rect.
  - intros i Z row Hi Hrow Hlen.
    destruct (rect_lookup n m X i) as (xi & Hxi & Hli); [done..|].
    rewrite (getitem_Some _ _ _ Hxi). simpl.
    rewrite mul1_same by lia. simpl. unfold setrow.
    rewrite (getitem_Some _ _ _ Hrow). simpl.
    rewrite decide_True by (rewrite length_zip_with; lia).
    rewrite setitem_lt by (by eapply lookup_lt_Some).
    by rewrite nth_lookup, Hxi.
Qed.

Lemma rowwise_mult_loop_ok n m (X : list (list F)) (y : list F) :
  rect n m X -> length y = m ->
  Rowwise.mult_loop X y = Ok (map (fun row => zip_with mul row y) X).
Proof.
  intros HX Hy. destruct (decide (X = [])) as [->|Hne]; [done|].
  unfold Rowwise.mult_loop. rewrite (shape_rect n m) by done.
  rewrite (fill_matrix
             (fun i j => mul (nth j (nth i X []) zero) (nth j y zero)) _ _ n m).
  - f_equal. pose proof HX as [Hn Hm]. rewrite <- Hn.
    rewrite (tabulate_nth
               (fun row => map (fun j => mul (nth j row zero) (nth j y zero))
                               (seq 0 m)) X []).
    apply map_ext_Forall. eapply Forall_impl; [exact Hm|].
    intros row Hrow. simpl in Hrow. rewrite <- Hrow.
    apply tabulate_zip. lia.
  - apply np_empty2_rect.
  - intros i j Z Hi Hj.
    destruct (rect_lookup n m X i) as (xi & Hxi & Hli); [done..|].
    destruct (lookup_lt_is_Some_2 xi j) as [xij Hxij]; [lia|].
    destruct (lookup_lt_is_Some_2 y j) as [yj Hyj]; [lia|].
    unfold Rowwise.getitem2.
    rewrite (getitem_Some _ _ _ Hxi). simpl.
    rewrite (getitem_Some _ _ _ Hxij), (getitem_Some _ _ _ Hyj). simpl.
    by rewrite !nth_lookup, Hxi, Hyj; simpl; rewrite Hxij.
Qed.

(** The second benchmark cell: for [X] of shape (n, m) and [y] of shape
    (m,), the broadcast product, the row loop and the cell loop return the
    same matrix. *)
Lemma rowwise_products_agree n m (X : list (list F)) (y : list F) :
  rect n m X -> length y = m ->
  exists Z, Rowwise.mult_vect X y = Ok Z
            /\ Rowwise.mult_loop_vect X y = Ok Z
            /\ Rowwise.mult_loop X y = Ok Z.
Proof.
  intros HX Hy. exists (map (fun row => zip_with mul row y) X).
  split; [|split].
  - by apply (rowwise_mult_vect_ok n m).
  - by apply (rowwise_mult_loop_vect_ok n m).
  - by apply (rowwise_mult_loop_ok n m).
Qed.

Lemma pairwise_scalar_rect n d (X : list (list F)) :
  rect n d X -> rect n n (pairwise_scalar X).
Proof.
  intros [Hn _]. unfold rect, pairwise_scalar. split.
  - by rewrite length_map.
  - apply Forall_forall. intros r Hr.
    apply list_elem_of_fmap in Hr as (xi & -> & _).
    by rewrite length_map.
Qed.

Lemma zip_with_ext_in {A B C} (f g : A -> B -> C) (x : list A) (y : list B) :
  (forall a b, In (a, b) (zip x y) -> f a b = g a b) ->
  zip_with f x y = zip_with g x y.
Proof.
  revert y. induction x as [|a x IH]; intros [|b y] Hfg; simpl; try done.
  rewrite Hfg by (by left). f_equal.
  apply IH. intros a' b' Hin. apply Hfg. by right.
Qed.

(** Where the two powers agree, [loop1] computes the matrix of the other
    three. *)
Lemma pairwise_scalar_agree (X : list (list F)) :
  powers_agree_on X -> pairwise_scalar X = pairwise X.
Proof.
  intros Hagree. unfold pairwise_scalar, pairwise.
  apply map_ext_in. intros xi Hxi.
  apply map_ext_in. intros xj Hxj.
  unfold dist_scalar, dist. do 2 f_equal.
  apply zip_with_ext_in. intros a b Hab. by apply (Hagree xi xj).
Qed.

(** C1, as the code has it: on every dataset of shape (n, d) with n >= 1 and
    d >= 1, [loop2], [broadcast1] and [broadcast2] return, without error,
    one and the same matrix; [loop1] returns an n-by-n matrix too, and it is
    that same matrix whenever the power of a single number, which
    [eucl_dist] computes, agrees with the power of an array on the
    differences of the coordinates of the rows. *)
Theorem implementations_agree n d (X : list (list F)) :
  1 <= n -> 1 <= d -> rect n d X ->
  exists M, loop2 X = Ok M /\ broadcast1 X = Ok M /\ broadcast2 X = Ok M
            /\ exists M1, loop1 X = Ok M1 /\ rect n n M1
                          /\ (powers_agree_on X -> M1 = M).
Proof.
  intros _ _ HX. exists (pairwise X). repeat split.
  - by apply (loop2_ok n d).
  - by apply (broadcast1_ok n d).
  - by apply (broadcast2_ok n d).
  - exists (pairwise_scalar X). split; [by apply (loop1_ok n d)|].
    split; [by apply (pairwise_scalar_rect n d)|].
    apply pairwise_scalar_agree.
Qed.

(** C2: on every dataset D of shape (n, d) with n >= 1 and d >= 1, [loop2]
    returns an n-by-n matrix M whose entry M[i][j] is
    sqrt(sum over k in [0, d) of (D[i][k] - D[j][k])^2), for all i, j in
    [0, n). *)
Theorem loop2_entries n d (D : list (list F)) :
  1 <= n -> 1 <= d -> rect n d D ->
  exists M, loop2 D = Ok M /\ rect n n M
            /\ forall i j, i < n -> j < n ->
                 entry M i j = Some (spec_dist d (nth i D []) (nth j D [])).
Proof.
  intros _ _ HD. exists (pairwise D). split; [by apply (loop2_ok n d)|].
  split; [by apply (pairwise_rect n d)|].
  intros i j Hi Hj.
  destruct (rect_lookup n d D i) as (xi & Hxi & Hli); [done..|].
  destruct (rect_lookup n d D j) as (xj & Hxj & Hlj); [done..|].
  rewrite (entry_pairwise D i j xi xj) by done.
  rewrite !nth_lookup, Hxi, Hxj. simpl.
  f_equal. apply dist_spec_dist; lia.
Qed.

(** C3, as the code has it: [loop2] validates nothing and raises no error
    on any rectangular dataset, the empty one (n = 0) included; it returns
    an n-by-n matrix. *)
Theorem loop2_total n d (D : list (list F)) :
  rect n d D -> exists M, loop2 D = Ok M /\ rect n n M.
Proof.
  intros HD. exists (pairwise D). split.
  - by apply (loop2_ok n d).
  - by apply (pairwise_rect n d).
Qed.

(** C8: on the empty dataset (n = 0) [loop1], [loop2] and [broadcast1]
    raise no error and return the empty 0-by-0 matrix. *)
Theorem empty_dataset_empty_matrix :
  loop1 ([] : list (list F)) = Ok []
  /\ loop2 ([] : list (list F)) = Ok []
  /\ broadcast1 ([] : list (list F)) = Ok [].
Proof. repeat split. Qed.

(** C9: when y has at least as many elements as x, [eucl_dist x y] raises
    no error and returns sqrt(sum over i in [0, len(x)) of (x[i] - y[i])^2);
    any y' with the same first len(x) elements gives the same result. *)
Theorem eucl_dist_prefix (x y : list F) :
  length x <= length y ->
  eucl_dist x y = Ok (spec_dist_scalar (length x) x y)
  /\ forall y', take (length x) y' = take (length x) y ->
                eucl_dist x y' = eucl_dist x y.
Proof.
  intros Hlen. split.
  - rewrite eucl_dist_ok by done. f_equal. by apply dist_scalar_spec_dist.
  - intros y' Hy'.
    assert (length x <= length y') as Hlen'.
    { apply (f_equal length) in Hy'. rewrite !length_take in Hy'. lia. }
    rewrite !eucl_dist_ok by done. f_equal. unfold dist_scalar.
    rewrite <- (zip_with_take_len _ x y'), Hy'.
    by rewrite zip_with_take_len.
Qed.

(** C10: for 1-D vectors x and y of the same length, [mult_loop x y] and
    [mult_vect x y] return the same vector z, with z[i] = x[i] * y[i]. *)
Theorem mult_loop_vect_agree (x y : list F) :
  length x = length y ->
  exists z, mult_loop x y = Ok z /\ mult_vect x y = Ok z
            /\ length z = length x
            /\ forall i xi yi, x !! i = Some xi -> y !! i = Some yi ->
                               z !! i = Some (mul xi yi).
Proof.
  intros Hlen. exists (zip_with mul x y). repeat split.
  - apply mult_loop_ok. lia.
  - by apply mult_vect_ok.
  - rewrite length_zip_with. lia.
  - intros i xi yi Hxi Hyi. by rewrite lookup_zip_with, Hxi, Hyi.
Qed.

End Generic.

(** ** Properties that need laws of the arithmetic *)

Section Laws.
Context {F : Type} `{NumPy F}.

Lemma dist_sym (x y : list F) :
  (forall a b : F, pow2 (sub a b) = pow2 (sub b a)) -> dist x y = dist y x.
Proof.
  intros Hsym. unfold dist. do 2 f_equal.
  revert y. induction x as [|a x IH]; intros [|b y]; simpl; try done.
  by rewrite Hsym, IH.
Qed.

Lemma dist_diag (x : list F) :
  pow2 zero = zero -> np_sqrt zero = zero ->
  (forall k, np_sum (replicate k zero) = zero) ->
  Forall (fun a => sub a a = zero) x ->
  dist x x = zero.
Proof.
  intros Hpow Hsqrt Hsum Hx. unfold dist.
  replace (zip_with (fun a b => pow2 (sub a b)) x x)
    with (replicate (length x) zero).
  - by rewrite Hsum.
  - induction Hx as [|a x Ha _ IH]; simpl; [done|].
    by rewrite Ha, Hpow, IH.
Qed.

Lemma pairwise_symmetric n d (D : list (list F)) :
  (forall a b : F, pow2 (sub a b) = pow2 (sub b a)) ->
  rect n d D ->
  forall i j, i < n -> j < n ->
    exists v, entry (pairwise D) i j = Some v /\ entry (pairwise D) j i = Some v.
Proof.
  intros Hsym HD i j Hi Hj.
  destruct (rect_lookup n d D i) as (xi & Hxi & _); [done..|].
  destruct (rect_lookup n d D j) as (xj & Hxj & _); [done..|].
  exists (dist xi xj).
  rewrite (entry_pairwise D i j xi xj), (entry_pairwise D j i xj xi) by done.
  by rewrite (dist_sym xj xi).
Qed.

Lemma pairwise_diagonal n d (D : list (list F)) :
  pow2 zero = zero -> np_sqrt zero = zero ->
  (forall k, np_sum (replicate k zero) = zero) ->
  Forall (Forall (fun a => sub a a = zero)) D ->
  rect n d D ->
  forall i, i < n -> entry (pairwise D) i i = Some zero.
Proof.
  intros Hpow Hsqrt Hsum Hcancel HD i Hi.
  destruct (rect_lookup n d D i) as (xi & Hxi & _); [done..|].
  rewrite (entry_pairwise D i i xi xi) by done.
  f_equal. apply dist_diag; try done.
  rewrite Forall_forall in Hcancel. apply Hcancel.
  by eapply list_elem_of_lookup_2.
Qed.

End Laws.

(** ** The distance matrix of [float64] data *)

Section Float64.
Local Open Scope float_scope.
Variable spow : float -> float.
Variable sum : list float -> float.
Variable junk : nat -> float.

(** Whatever the data and the reduction order of [np.sum], M[i][j] and
    M[j][i] are the same number. *)
Lemma loop2_mirror n d (D : list (list float)) :
  rect n d D ->
  exists M, @loop2 _ (float64_with spow sum junk) D = Ok M
            /\ forall i j, (i < n)%nat -> (j < n)%nat ->
                 exists v, entry M i j = Some v /\ entry M j i = Some v.
Proof.
  intros HD. exists (@pairwise _ (float64_with spow sum junk) D). split.
  - by apply (loop2_ok n d).
  - apply (pairwise_symmetric n d); [|done].
    intros a b. apply sq_diff_sym.
Qed.

(** The distance between two rows of finite numbers is not NaN. *)
Lemma dist_nonneg (x y : list float) :
  sum_keeps_nonneg sum ->
  Forall (fun a => is_finite a = true) x ->
  Forall (fun a => is_finite a = true) y ->
  nonneg (@dist _ (float64_with spow sum junk) x y).
Proof.
  intros Hsum Hx Hy. unfold dist. simpl.
  apply sqrt_nonneg, Hsum.
  revert y Hy. induction Hx as [|a x Ha _ IH]; intros y Hy; [done|].
  destruct Hy as [|b y Hb Hy]; [done|].
  cbn [zip_with]. constructor; [by apply sq_diff_nonneg | by apply IH].
Qed.

(** X9: every entry of the matrix of a finite dataset satisfies
    [0 <= M[i][j]]: it is neither negative nor NaN, so that [==] on it is
    reflexive. *)
Lemma loop2_entries_nonneg n d (D : list (list float)) :
  sum_keeps_nonneg sum -> rect n d D -> all_finite D ->
  exists M, @loop2 _ (float64_with spow sum junk) D = Ok M
            /\ forall i j, (i < n)%nat -> (j < n)%nat ->
                 exists v, entry M i j = Some v /\ nonneg v /\ float_eq v v.
Proof.
  intros Hsum HD Hfin.
  exists (@pairwise _ (float64_with spow sum junk) D). split.
  - by apply (loop2_ok n d).
  - intros i j Hi Hj.
    destruct (rect_lookup n d D i) as (xi & Hxi & _); [done..|].
    destruct (rect_lookup n d D j) as (xj & Hxj & _); [done..|].
    exists (@dist _ (float64_with spow sum junk) xi xj).
    rewrite (entry_pairwise D i j xi xj) by done.
    unfold all_finite in Hfin. rewrite Forall_forall in Hfin.
    assert (nonneg (@dist _ (float64_with spow sum junk) xi xj)) as Hnn.
    { apply dist_nonneg; [done | |]; apply Hfin;
        by eapply list_elem_of_lookup_2. }
    repeat split; [done|]. by apply nonneg_eqb_refl.
Qed.

(** C4: on every dataset of finite [float64] numbers of shape (n, d) with
    n >= 1 and d >= 1, the matrix returned by [loop2] is symmetric: M[i][j]
    and M[j][i] are the same number and [M[i][j] == M[j][i]] is true, for
    every [np.sum] that adds non-negative numbers to a non-negative one. *)
Theorem distance_matrix_symmetric n d (D : list (list float)) :
  sum_keeps_nonneg sum ->
  (1 <= n)%nat -> (1 <= d)%nat -> rect n d D -> all_finite D ->
  exists M, @loop2 _ (float64_with spow sum junk) D = Ok M
            /\ forall i j, (i < n)%nat -> (j < n)%nat ->
                 exists a b, entry M i j = Some a /\ entry M j i = Some b
                             /\ a = b /\ float_eq a b.
Proof.
  intros Hsum _ _ HD Hfin.
  exists (@pairwise _ (float64_with spow sum junk) D). split.
  - by apply (loop2_ok n d).
  - intros i j Hi Hj.
    destruct (rect_lookup n d D i) as (xi & Hxi & _); [done..|].
    destruct (rect_lookup n d D j) as (xj & Hxj & _); [done..|].
    exists (@dist _ (float64_with spow sum junk) xi xj),
           (@dist _ (float64_with spow sum junk) xj xi).
    rewrite (entry_pairwise D i j xi xj), (entry_pairwise D j i xj xi) by done.
    assert (@dist _ (float64_with spow sum junk) xj xi
            = @dist _ (float64_with spow sum junk) xi xj) as ->.
    { apply dist_sym. intros a b. apply sq_diff_sym. }
    repeat split. apply nonneg_eqb_refl, dist_nonneg; [done | |].
    + unfold all_finite in Hfin. rewrite Forall_forall in Hfin.
      apply Hfin. by eapply list_elem_of_lookup_2.
    + unfold all_finite in Hfin. rewrite Forall_forall in Hfin.
      apply Hfin. by eapply list_elem_of_lookup_2.
Qed.

(** C5: on every dataset of finite [float64] numbers of shape (n, d) with
    n >= 1 and d >= 1, every diagonal entry of the matrix returned by
    [loop2] is exactly 0, for every [np.sum] that adds zeros up to zero. *)
Theorem diagonal_exactly_zero n d (D : list (list float)) :
  (forall k, sum (replicate k 0) = 0) ->
  (1 <= n)%nat -> (1 <= d)%nat -> rect n d D -> all_finite D ->
  exists M, @loop2 _ (float64_with spow sum junk) D = Ok M
            /\ forall i, (i < n)%nat -> entry M i i = Some 0.
Proof.
  intros Hsum _ _ HD Hfin.
  exists (@pairwise _ (float64_with spow sum junk) D). split.
  - by apply (loop2_ok n d).
  - apply (@pairwise_diagonal _ (float64_with spow sum junk) n d); try done.
    eapply Forall_impl; [exact Hfin|]. intros row Hrow.
    eapply Forall_impl; [exact Hrow|]. intros a Ha.
    by apply sub_diag_finite.
Qed.

End Float64.

(** ** The distance matrix in exact arithmetic *)

Section RealArithmetic.
Local Open Scope R_scope.
Variable junk : nat -> R.

Lemma Rsum_acc (l : list R) (acc : R) :
  fold_left Rplus l acc = acc + Rsum l.
Proof.
  unfold Rsum. revert acc. induction l as [|a l IH]; intros acc; simpl.
  - lra.
  - rewrite (IH (acc + a)), (IH (0 + a)). lra.
Qed.

Lemma Rsum_cons (a : R) (l : list R) : Rsum (a :: l) = a + Rsum l.
Proof. unfold Rsum at 1. simpl. rewrite Rsum_acc. lra. Qed.

Lemma Rsum_zeros k : Rsum (replicate k 0) = 0.
Proof.
  induction k as [|k IH]; [done|].
  cbn [replicate]. rewrite Rsum_cons, IH. lra.
Qed.



Lemma Rdist_unfold (x y : list R) :
  @dist R (reals_with junk) x y = R_sqrt.sqrt (Rsum (zip_with sqdiff x y)).
Proof. reflexivity. Qed.


Lemma real_sq_diff_sym (a b : R) : (a - b) * (a - b) = (b - a) * (b - a).
Proof. ring. Qed.

Lemma real_cancel (D : list (list R)) :
  Forall (Forall (fun a => a - a = 0)) D.
Proof.
  apply Forall_forall. intros row _. apply Forall_forall. intros a _. ring.
Qed.

(** In exact arithmetic the matrix is symmetric with a zero diagonal. *)
Lemma real_matrix_symmetric n d (D : list (list R)) :
  rect n d D ->
  exists M, @loop2 _ (reals_with junk) D = Ok M
            /\ (forall i j, (i < n)%nat -> (j < n)%nat ->
                  exists v, entry M i j = Some v /\ entry M j i = Some v)
            /\ (forall i, (i < n)%nat -> entry M i i = Some 0).
Proof.
  intros HD. exists (@pairwise _ (reals_with junk) D). split; [|split].
  - by apply (loop2_ok n d).
  - apply (pairwise_symmetric n d); [|done]. apply real_sq_diff_sym.
  - apply (@pairwise_diagonal _ (reals_with junk) n d); try done.
    + simpl. ring.
    + apply sqrt_0.
    + apply Rsum_zeros.
    + apply real_cancel.
Qed.

End RealArithmetic.

(** ** Comparing [float64] numbers through the reals they stand for *)

Section Order.
Local Open Scope Z_scope.



End Order.

Section OrderR.
Local Open Scope R_scope.


Lemma powerRZ_2_nat (k : Z) : (0 <= k)%Z -> powerRZ 2 k = IZR (2 ^ k).
Proof.
  intros Hk. destruct k as [|p|p]; [done | | lia].
  simpl powerRZ. rewrite pow_IZR. by rewrite positive_nat_Z.
Qed.






End OrderR.

(** ** The triangle inequality in [float64] *)

Section Triangle.
Local Open Scope float_scope.







Variable spow : float -> float.
Variable sum : list float -> float.
Variable junk : nat -> float.


End Triangle.

(** ** Concrete datasets *)

(** C3, as stated, fails: on the empty dataset [loop2] raises nothing. *)
Lemma loop2_accepts_empty : ~ raises (@loop2 float float64 []).
Proof. intros [e He]. discriminate He. Qed.


(** C7: the single-row dataset [[0,0]] is accepted and gives the 1-by-1 zero
    matrix [[0]], in [float64] and in exact arithmetic. *)
Theorem single_row_zero_matrix :
  @loop2 float float64 single_row = Ok [[0%float]]
  /\ @loop2 R reals single_row_real = Ok [[0%R]].
Proof.
  split; [vm_compute; reflexivity|].
  rewrite (loop2_ok 1 2) by (split; [done | repeat constructor]).
  unfold pairwise, single_row_real. cbn [map].
  rewrite (dist_diag [0%R; 0%R]); [done | | | | ].
  - simpl. ring.
  - apply sqrt_0.
  - apply Rsum_zeros.
  - repeat constructor; simpl; ring.
Qed.

(** ** The theorems at concrete inputs *)

Lemma two_points_rect : rect 2 2 two_points.
Proof. split; [reflexivity | repeat constructor]. Defined.

Lemma two_points_real_rect : rect 2 2 two_points_real.
Proof. split; [reflexivity | repeat constructor]. Defined.

Lemma implementations_agree_witness :
  exists M, @loop2 float float64 two_points = Ok M
            /\ @broadcast1 float float64 two_points = Ok M
            /\ @broadcast2 float float64 two_points = Ok M
            /\ exists M1, @loop1 float float64 two_points = Ok M1
                          /\ rect 2 2 M1
                          /\ (@powers_agree_on float float64 two_points ->
                              M1 = M).
Proof.
  apply (implementations_agree 2 2 two_points); [lia | lia | exact two_points_rect].
Defined.

Lemma loop2_entries_witness :
  exists M, @loop2 float float64 two_points = Ok M /\ rect 2 2 M
            /\ forall i j, i < 2 -> j < 2 ->
                 entry M i j
                 = Some (@spec_dist float float64 2 (nth i two_points [])
                                    (nth j two_points [])).
Proof.
  apply (loop2_entries 2 2 two_points); [lia | lia | exact two_points_rect].
Defined.

Lemma loop2_total_witness :
  exists M, @loop2 float float64 [] = Ok M /\ rect 0 0 M.
Proof.
  apply (loop2_total 0 2 []). split; [reflexivity | constructor].
Defined.

Lemma two_points_finite : all_finite two_points.
Proof. repeat constructor. Defined.

Lemma distance_matrix_symmetric_witness :
  exists M, @loop2 float float64 two_points = Ok M
            /\ forall i j, i < 2 -> j < 2 ->
                 exists a b, entry M i j = Some a /\ entry M j i = Some b
                             /\ a = b /\ float_eq a b.
Proof.
  apply (distance_matrix_symmetric pow2_glibc sum_seq (fun _ => nan) 2 2 two_points);
    [exact sum_seq_nonneg | lia | lia | exact two_points_rect
    | exact two_points_finite].
Defined.

Lemma diagonal_exactly_zero_witness :
  exists M, @loop2 float float64 two_points = Ok M
            /\ forall i, i < 2 -> entry M i i = Some 0%float.
Proof.
  apply (diagonal_exactly_zero pow2_glibc sum_seq (fun _ => nan) 2 2 two_points);
    [exact sum_seq_zeros | lia | lia | exact two_points_rect
    | exact two_points_finite].
Defined.

Lemma eucl_dist_prefix_witness :
  @eucl_dist float float64 [3%float] [0%float; 7%float]
  = Ok (@spec_dist_scalar float float64 1 [3%float] [0%float; 7%float])
  /\ forall y', take 1 y' = take 1 [0%float; 7%float] ->
       @eucl_dist float float64 [3%float] y'
       = @eucl_dist float float64 [3%float] [0%float; 7%float].
Proof.
  apply (@eucl_dist_prefix float float64 [3%float] [0%float; 7%float]).
  simpl. lia.
Defined.

Lemma mult_loop_vect_agree_witness :
  exists z, @mult_loop float float64 [1; 2; 3]%float [4; 5; 6]%float = Ok z
            /\ @mult_vect float float64 [1; 2; 3]%float [4; 5; 6]%float = Ok z
            /\ length z = 3
            /\ forall i xi yi, [1; 2; 3]%float !! i = Some xi ->
                               [4; 5; 6]%float !! i = Some yi ->
                               z !! i = Some (PrimFloat.mul xi yi).
Proof.
  apply (@mult_loop_vect_agree float float64 [1; 2; 3]%float [4; 5; 6]%float).
  reflexivity.
Defined.

(** ** The scenarios of the specification, evaluated in [float64] *)

Example scenario_two_points :
  @loop2 float float64 two_points = Ok [[0; 5]; [5; 0]]%float
  /\ @broadcast2 float float64 two_points = Ok [[0; 5]; [5; 0]]%float.
Proof. split; vm_compute; reflexivity. Qed.

Example scenario_identical_rows :
  @loop2 float float64 [[1; 1]; [1; 1]]%float = Ok [[0; 0]; [0; 0]]%float.
Proof. vm_compute. reflexivity. Qed.

Example scenario_line :
  @loop2 float float64 [[0]; [1]; [3]]%float
  = Ok [[0; 1; 3]; [1; 0; 2]; [3; 2; 0]]%float.
Proof. vm_compute. reflexivity. Qed.

Example scenario_underflow :
  @loop2 float float64 underflow_points
  = Ok [[0; 0; 0x1p-537]; [0; 0; 0]; [0x1p-537; 0; 0]]%float.
Proof. vm_compute. reflexivity. Qed.

(** ** Where the loops stop: indices out of range and shapes that do not
    broadcast *)

Section Failures.
Context {F : Type} `{NumPy F}.

(** A loop over [seq a k] whose body raises at index [j], having kept an
    invariant until then. *)
Lemma for_in_seq_raise {S} (P : nat -> S -> Prop) (body : nat -> S -> result S)
    (e : exn) :
  forall k a s j,
    a <= j < a + k ->
    P a s ->
    (forall i s', a <= i < j -> P i s' ->
                  exists s'', body i s' = Ok s'' /\ P (Datatypes.S i) s'') ->
    (forall s', P j s' -> body j s' = Raise e) ->
    for_in (seq a k) body s = Raise e.
Proof.
  induction k as [|k IH]; intros a s j Hj HP Hstep Hraise; [lia|].
  simpl. destruct (decide (a = j)) as [->|Hne].
  - by rewrite Hraise.
  - destruct (Hstep a s) as (s1 & Hb & HP1); [lia | done |].
    rewrite Hb. simpl.
    apply (IH (Datatypes.S a) s1 j); [lia | done | | done].
    intros i s' Hi. apply Hstep. lia.
Qed.

Lemma getitem_None {A} (a : list A) i :
  length a <= i -> getitem a i = Raise IndexError.
Proof.
  intros Hi. unfold getitem. by rewrite lookup_ge_None_2.
Qed.

(** A loop that reads [x[i]] and [y[i]] and writes [z[i]], for a [y] that is
    too short. *)
Lemma zip_loop_short (f : F -> F -> F) (x y z0 : list F) :
  length y < length x -> length z0 = length x ->
  for_in (range (length x))
    (fun i z => xi <- getitem x i ;; yi <- getitem y i ;; setitem z i (f xi yi))
    z0
  = Raise IndexError.
Proof.
  intros Hlen Hz.
  apply (for_in_seq_raise (fun _ z => length z = length x) _ _ _ _ _ (length y));
    [lia | done | |].
  - intros i z Hi Hzi.
    destruct (lookup_lt_is_Some_2 x i) as [xi Hxi]; [lia|].
    destruct (lookup_lt_is_Some_2 y i) as [yi Hyi]; [lia|].
    rewrite (getitem_Some _ _ _ Hxi), (getitem_Some _ _ _ Hyi). simpl.
    rewrite setitem_lt by lia. eexists. split; [done|].
    by rewrite length_insert.
  - intros z Hzi.
    destruct (lookup_lt_is_Some_2 x (length y)) as [xi Hxi]; [lia|].
    rewrite (getitem_Some _ _ _ Hxi). simpl.
    by rewrite getitem_None.
Qed.

Lemma np_empty1_length n : length (np_empty1 n) = n.
Proof. unfold np_empty1. by rewrite length_map, length_seq. Qed.

(** X1: [mult_loop x y] multiplies [x] with the first [len(x)] elements of
    [y] when [y] is at least as long as [x], and raises [IndexError] when
    [y] is shorter. *)
Theorem mult_loop_lengths (x y : list F) :
  mult_loop x y
  = if decide (length x <= length y) then Ok (zip_with mul x y)
    else Raise IndexError.
Proof.
  case_decide as Hlen.
  - by apply mult_loop_ok.
  - unfold mult_loop. apply zip_loop_short; [lia|]. apply np_empty1_length.
Qed.

(** X3: [eucl_dist x y] raises [IndexError] exactly when [y] is shorter than
    [x]; otherwise it returns the distance between [x] and the first
    [len(x)] elements of [y]. *)
Theorem eucl_dist_lengths (x y : list F) :
  eucl_dist x y
  = if decide (length x <= length y) then Ok (dist_scalar x y)
    else Raise IndexError.
Proof.
  case_decide as Hlen.
  - by apply eucl_dist_ok.
  - unfold eucl_dist.
    rewrite (zip_loop_short (fun a b => pow2_scalar (sub a b))); [done | lia |].
    apply np_empty1_length.
Qed.

Lemma broadcast_mismatch {A B C} (f : A -> B -> result C) xs ys :
  length xs <> length ys -> length xs <> 1 -> length ys <> 1 ->
  broadcast f xs ys = Raise ValueError.
Proof.
  intros Hne Hx Hy. unfold broadcast. rewrite decide_False by done.
  destruct xs as [|x [|x' xs]], ys as [|y [|y' ys]]; simpl in *; done.
Qed.

Lemma mapM_Ok {A B} (g : A -> B) (l : list A) :
  mapM (fun a => Ok (g a)) l = Ok (map g l).
Proof. by apply mapM_pure. Qed.

(** X2: the cell's assertion [mult_vect(x, y) == mult_loop(x, y)] describes
    vectors of the same length only.  With a one-element [y] and an [x] of
    two or more elements, [mult_vect] returns the multiples of [x] while
    [mult_loop] raises [IndexError]; with a [y] longer than [x], neither of
    length 1, [mult_loop] returns the products with the first [len(x)]
    elements of [y] while [mult_vect] raises [ValueError]. *)
Theorem mult_loop_vect_disagree (x y : list F) :
  (forall b, y = [b] -> 2 <= length x ->
     mult_vect x y = Ok (map (fun a => mul a b) x)
     /\ mult_loop x y = Raise IndexError)
  /\ (length x < length y -> length x <> 1 -> length y <> 1 ->
      mult_loop x y = Ok (zip_with mul x y)
      /\ mult_vect x y = Raise ValueError).
Proof.
  split.
  - intros b -> Hx. split.
    + unfold mult_vect, mul1. rewrite broadcast_single_r. apply mapM_Ok.
    + rewrite mult_loop_lengths. apply decide_False. simpl. lia.
  - intros Hlen Hx Hy. split.
    + rewrite mult_loop_lengths. apply decide_True. lia.
    + unfold mult_vect, mul1. apply broadcast_mismatch; lia.
Qed.

End Failures.

Section RowwiseCell.
Context {F : Type} `{NumPy F}.

Lemma entry_map_rows {A} (g : list F -> list A) (X : list (list F)) i :
  (map g X) !! i = g <$> (X !! i).
Proof. apply list_lookup_fmap. Qed.

(** The cell loop only reads the first [m] elements of [y]. *)
Lemma rowwise_mult_loop_prefix n m (X : list (list F)) (y : list F) :
  rect n m X -> m <= length y ->
  Rowwise.mult_loop X y = Ok (map (fun row => zip_with mul row y) X).
Proof.
  intros HX Hy. destruct (decide (X = [])) as [->|Hne]; [done|].
  unfold Rowwise.mult_loop. rewrite (shape_rect n m) by done.
  rewrite (fill_matrix
             (fun i j => mul (nth j (nth i X []) zero) (nth j y zero)) _ _ n m).
  - f_equal. pose proof HX as [Hn Hm]. rewrite <- Hn.
    rewrite (tabulate_nth
               (fun row => map (fun j => mul (nth j row zero) (nth j y zero))
                               (seq 0 m)) X []).
    apply map_ext_Forall. eapply Forall_impl; [exact Hm|].
    intros row Hrow. simpl in Hrow. rewrite <- Hrow.
    apply tabulate_zip. lia.
  - apply np_empty2_rect.
  - intros i j Z Hi Hj.
    destruct (rect_lookup n m X i) as (xi & Hxi & Hli); [done..|].
    destruct (lookup_lt_is_Some_2 xi j) as [xij Hxij]; [lia|].
    destruct (lookup_lt_is_Some_2 y j) as [yj Hyj]; [lia|].
    unfold Rowwise.getitem2.
    rewrite (getitem_Some _ _ _ Hxi). simpl.
    rewrite (getitem_Some _ _ _ Hxij), (getitem_Some _ _ _ Hyj). simpl.
    by rewrite !nth_lookup, Hxi, Hyj; simpl; rewrite Hxij.
Qed.

(** The cell loop runs out of [y] in the first row. *)
Lemma rowwise_mult_loop_short n m (X : list (list F)) (y : list F) :
  rect n m X -> 1 <= n -> length y < m ->
  Rowwise.mult_loop X y = Raise IndexError.
Proof.
  intros HX Hn Hy.
  assert (X <> []) as Hne by (destruct HX as [HX _], X; simpl in *; [lia|done]).
  unfold Rowwise.mult_loop. rewrite (shape_rect n m) by done.
  destruct n as [|n']; [lia|].
  unfold range at 1. cbn [seq for_in].
  rewrite (for_in_seq_raise
             (fun _ Z => exists row, Z !! 0 = Some row /\ length row = m)
             _ IndexError m 0 _ (length y)); [done | lia | | |].
  - apply (rect_lookup (Datatypes.S n') m); [apply np_empty2_rect | lia].
  - intros j Z Hj (row & Hrow & Hlen).
    destruct (rect_lookup _ _ X 0 HX) as (x0 & Hx0 & Hl0); [lia|].
    destruct (lookup_lt_is_Some_2 x0 j) as [xij Hxij]; [lia|].
    destruct (lookup_lt_is_Some_2 y j) as [yj Hyj]; [lia|].
    unfold Rowwise.getitem2.
    rewrite (getitem_Some _ _ _ Hx0). simpl.
    rewrite (getitem_Some _ _ _ Hxij), (getitem_Some _ _ _ Hyj). simpl.
    rewrite (setitem2_row _ _ _ _ row) by (done || lia).
    eexists. split; [done|]. eexists. split.
    + apply list_lookup_insert_eq. by eapply lookup_lt_Some.
    + by rewrite length_insert.
  - intros Z (row & Hrow & Hlen).
    destruct (rect_lookup _ _ X 0 HX) as (x0 & Hx0 & Hl0); [lia|].
    destruct (lookup_lt_is_Some_2 x0 (length y)) as [xij Hxij]; [lia|].
    unfold Rowwise.getitem2.
    rewrite (getitem_Some _ _ _ Hx0). simpl.
    rewrite (getitem_Some _ _ _ Hxij). simpl.
    by rewrite getitem_None.
Qed.

Lemma mapM_head_raise {A B} (f : A -> result B) (l : list A) x e :
  l !! 0 = Some x -> f x = Raise e -> mapM f l = Raise e.
Proof.
  destruct l as [|x' l]; [done|]. intros [= ->] Hf. simpl. by rewrite Hf.
Qed.

(** X4: for [X] of shape (n, m) and [y] of shape (m,), the three functions
    of the second benchmark cell return the same matrix [Z], of shape
    (n, m), with [Z[i][j] = X[i][j] * y[j]]. *)
Theorem rowwise_products_entries n m (X : list (list F)) (y : list F) :
  rect n m X -> length y = m ->
  exists Z, Rowwise.mult_vect X y = Ok Z
            /\ Rowwise.mult_loop_vect X y = Ok Z
            /\ Rowwise.mult_loop X y = Ok Z
            /\ rect n m Z
            /\ forall i j a b, entry X i j = Some a -> y !! j = Some b ->
                               entry Z i j = Some (mul a b).
Proof.
  intros HX Hy. exists (map (fun row => zip_with mul row y) X).
  split; [by apply (rowwise_mult_vect_ok n m)|].
  split; [by apply (rowwise_mult_loop_vect_ok n m)|].
  split; [by apply (rowwise_mult_loop_ok n m)|].
  split.
  - destruct HX as [Hn Hm]. split; [by rewrite length_map|].
    apply Forall_forall. intros r Hr.
    apply list_elem_of_fmap in Hr as (row & -> & Hrow).
    rewrite Forall_forall in Hm. rewrite length_zip_with, (Hm _ Hrow). lia.
  - intros i j a b Ha Hb. unfold entry in *.
    rewrite entry_map_rows.
    destruct (X !! i) as [row|]; [|done]. simpl.
    by rewrite lookup_zip_with, Ha, Hb.
Qed.

(** X5: when the length of [y] is neither m nor 1 (and m is not 1), the
    broadcast product and the row loop raise [ValueError]; the cell loop
    raises [IndexError] if [y] is shorter than a row and otherwise returns
    the products with the first m elements of [y]. *)
Theorem rowwise_shape_mismatch n m (X : list (list F)) (y : list F) :
  rect n m X -> 1 <= n -> m <> 1 -> length y <> 1 -> length y <> m ->
  Rowwise.mult_vect X y = Raise ValueError
  /\ Rowwise.mult_loop_vect X y = Raise ValueError
  /\ Rowwise.mult_loop X y
     = if decide (m < length y)
       then Ok (map (fun row => zip_with mul row y) X)
       else Raise IndexError.
Proof.
  intros HX Hn Hm1 Hy1 Hym.
  destruct (rect_lookup n m X 0 HX) as (x0 & Hx0 & Hl0); [lia|].
  assert (mul1 x0 y = Raise ValueError) as Hrow.
  { apply broadcast_mismatch; lia. }
  assert (X <> []) as Hne by (intros ->; done).
  split; [|split].
  - unfold Rowwise.mult_vect, Rowwise.mul2.
    rewrite broadcast_single_r. by apply (mapM_head_raise _ _ x0).
  - unfold Rowwise.mult_loop_vect. rewrite (shape_rect n m) by done.
    destruct n as [|n']; [lia|].
    unfold range. cbn [seq for_in].
    by rewrite (getitem_Some _ _ _ Hx0); simpl; rewrite Hrow.
  - case_decide.
    + apply (rowwise_mult_loop_prefix n m); [done | lia].
    + apply (rowwise_mult_loop_short n m); [done | done | lia].
Qed.

(** X6: with a one-element [y = [c]], the broadcast product and the row
    loop multiply every cell of [X] by [c]; the cell loop raises
    [IndexError] as soon as [X] has a row of two or more elements. *)
Theorem rowwise_scalar_broadcast n m (X : list (list F)) (c : F) :
  rect n m X ->
  Rowwise.mult_vect X [c] = Ok (map (map (fun a => mul a c)) X)
  /\ Rowwise.mult_loop_vect X [c] = Ok (map (map (fun a => mul a c)) X)
  /\ (1 <= n -> 2 <= m -> Rowwise.mult_loop X [c] = Raise IndexError).
Proof.
  intros HX.
  assert (forall row, mul1 row [c] = Ok (map (fun a => mul a c) row)) as Hrow.
  { intros row. unfold mul1. rewrite broadcast_single_r. apply mapM_Ok. }
  split; [|split].
  - unfold Rowwise.mult_vect, Rowwise.mul2.
    rewrite broadcast_single_r. apply mapM_pure. intros row _. apply Hrow.
  - destruct (decide (X = [])) as [->|Hne]; [done|].
    unfold Rowwise.mult_loop_vect. rewrite (shape_rect n m) by done.
    rewrite <- (tabulate_nth (map (fun a => mul a c)) X []).
    pose proof HX as [Hn Hm]. rewrite Hn.
    apply (fill_rows (fun i => map (fun a => mul a c) (nth i X [])) _ _ n m).
    + apply np_empty2_rect.
    + intros i Z row Hi Hrowi Hlen.
      destruct (rect_lookup n m X i) as (xi & Hxi & Hli); [done..|].
      rewrite (getitem_Some _ _ _ Hxi). simpl.
      rewrite Hrow. simpl. unfold setrow.
      rewrite (getitem_Some _ _ _ Hrowi). simpl.
      rewrite decide_True by (rewrite length_map; lia).
      rewrite setitem_lt by (by eapply lookup_lt_Some).
      by rewrite nth_lookup, Hxi.
  - intros Hn Hm. apply (rowwise_mult_loop_short n m); [done | done |].
    simpl. lia.
Qed.

End RowwiseCell.

(** ** What [np.empty] leaves behind *)

Section Uninitialised.
Context {F : Type}.
Variables (z : F) (sb ml : F -> F -> F) (pw ps : F -> F)
          (sm : list F -> F) (sq : F -> F).

(** X7: no cell of an array made by [np.empty] survives: two runs that differ
    only in the content of fresh arrays return the same result, for
    [mult_loop] and [eucl_dist] on all vectors and for [loop1], [loop2] and
    [broadcast1] on every rectangular dataset. *)
Theorem fresh_cells_never_read (junk1 junk2 : nat -> F) :
  let np1 := Build_NumPy F z sb ml pw ps sm sq junk1 in
  let np2 := Build_NumPy F z sb ml pw ps sm sq junk2 in
  (forall x y, @mult_loop F np1 x y = @mult_loop F np2 x y)
  /\ (forall x y, @eucl_dist F np1 x y = @eucl_dist F np2 x y)
  /\ (forall n d X, @rect F n d X ->
        @loop1 F np1 X = @loop1 F np2 X
        /\ @loop2 F np1 X = @loop2 F np2 X
        /\ @broadcast1 F np1 X = @broadcast1 F np2 X).
Proof.
  intros np1 np2. split; [|split].
  - intros x y. by rewrite !mult_loop_lengths.
  - intros x y. by rewrite !eucl_dist_lengths.
  - intros n d X HX. split; [|split].
    + by rewrite (@loop1_ok F np1 n d), (@loop1_ok F np2 n d).
    + by rewrite (@loop2_ok F np1 n d), (@loop2_ok F np2 n d).
    + by rewrite (@broadcast1_ok F np1 n d), (@broadcast1_ok F np2 n d).
Qed.

End Uninitialised.

(** ** Degenerate shapes *)

Section Degenerate.
Context {F : Type} `{NumPy F}.

Lemma no_columns (X : list (list F)) :
  Forall (fun r => length r = 0) X -> X = replicate (length X) [].
Proof.
  induction 1 as [|r X Hr _ IH]; simpl; [done|].
  destruct r; [|done]. by rewrite <- IH.
Qed.

Lemma map_replicate {A B} (g : A -> B) k (a : A) :
  map g (replicate k a) = replicate k (g a).
Proof. induction k as [|k IH]; simpl; [done|]. by rewrite IH. Qed.

(** X8: on a dataset without rows or without columns the four
    implementations raise no error and agree: the result is the n-by-n
    matrix whose every entry is [np.sqrt(np.sum([]))] (the 0-by-0 matrix
    when n = 0). *)
Theorem degenerate_shapes n d (X : list (list F)) :
  rect n d X -> n = 0 \/ d = 0 ->
  let M := replicate n (replicate n (np_sqrt (np_sum []))) in
  loop1 X = Ok M /\ loop2 X = Ok M /\ broadcast1 X = Ok M /\ broadcast2 X = Ok M.
Proof.
  intros HX Hnd M.
  assert (pairwise_scalar X = M) as HM1.
  { destruct HX as [Hn Hd]. destruct Hnd as [-> | ->].
    - by destruct X.
    - rewrite (no_columns X Hd), Hn. unfold pairwise_scalar, M.
      rewrite map_replicate. f_equal. by rewrite map_replicate. }
  assert (pairwise X = M) as <-.
  { destruct HX as [Hn Hd]. destruct Hnd as [-> | ->].
    - by destruct X.
    - rewrite (no_columns X Hd), Hn. unfold pairwise, M.
      rewrite map_replicate. f_equal. by rewrite map_replicate. }
  repeat split.
  - rewrite <- HM1. by apply (loop1_ok n d).
  - by apply (loop2_ok n d).
  - by apply (broadcast1_ok n d).
  - by apply (broadcast2_ok n d).
Qed.

End Degenerate.

(** ** More on [float64] data *)

Section Float64Rows.
Local Open Scope float_scope.
Variable spow : float -> float.
Variable sum : list float -> float.
Variable junk : nat -> float.

(** X10: rows of finite numbers that are identical are at distance exactly
    0, on and off the diagonal, for every [np.sum] that adds zeros up to
    zero. *)
Theorem identical_rows_zero n d (D : list (list float)) :
  (forall k, sum (replicate k 0) = 0) ->
  rect n d D -> all_finite D ->
  exists M, @loop2 _ (float64_with spow sum junk) D = Ok M
            /\ forall i j row, D !! i = Some row -> D !! j = Some row ->
                               entry M i j = Some 0.
Proof.
  intros Hsum HD Hfin.
  exists (@pairwise _ (float64_with spow sum junk) D). split.
  - by apply (loop2_ok n d).
  - intros i j row Hi Hj.
    rewrite (entry_pairwise D i j row row) by done.
    f_equal. apply (@dist_diag _ (float64_with spow sum junk)); try done.
    unfold all_finite in Hfin. rewrite Forall_forall in Hfin.
    eapply Forall_impl; [apply Hfin; by eapply list_elem_of_lookup_2|].
    intros a Ha. by apply sub_diag_finite.
Qed.

Lemma sub_swap (a b : float) : b - a = - (a - b) \/ b - a = a - b.
Proof.
  destruct (SFsub_swap (Prim2SF a) (Prim2SF b)) as [Hopp | Heq].
  - left. apply Prim2SF_inj. by rewrite opp_spec, !sub_spec.
  - right. apply Prim2SF_inj. by rewrite !sub_spec.
Qed.

(** X11: for vectors of the same length [eucl_dist x y] and
    [eucl_dist y x] return the same number, whatever the reduction order of
    [np.sum], for every C library whose [pow(t, 2)] does not depend on the
    sign of [t]. *)
Theorem eucl_dist_symmetric (x y : list float) :
  (forall t, spow (- t) = spow t) ->
  length x = length y ->
  @eucl_dist _ (float64_with spow sum junk) x y
  = @eucl_dist _ (float64_with spow sum junk) y x.
Proof.
  intros Heven Hlen. rewrite !eucl_dist_ok by lia. f_equal.
  unfold dist_scalar. simpl. do 2 f_equal. clear Hlen.
  revert y. induction x as [|a x IH]; intros [|b y]; simpl; try done.
  f_equal; [|apply IH].
  destruct (sub_swap a b) as [-> | ->]; [by rewrite Heven | done].
Qed.

End Float64Rows.

(** ** The broadcasting cells *)

Section CellsFacts.
Context {F : Type}.
Variable add : F -> F -> F.

Lemma reshape_column_rows (y : list F) :
  reshape (replicate (length y) 1) y = map (fun v => [v]) y.
Proof.
  induction y as [|v y IH]; simpl; [done|].
  rewrite take_0, drop_0. by rewrite IH.
Qed.

Lemma add1_same (x y : list F) :
  length x = length y -> add1 add x y = Ok (zip_with add x y).
Proof.
  intros Hlen. unfold add1. rewrite broadcast_same by done. apply zipM_pure.
Qed.

Lemma add1_single (x : list F) (b : F) :
  add1 add x [b] = Ok (map (fun a => add a b) x).
Proof. unfold add1. rewrite broadcast_single_r. apply mapM_Ok. Qed.

Lemma zipM_columns (X : list (list F)) (y : list F) :
  zipM (add1 add) X (map (fun v => [v]) y)
  = Ok (zip_with (fun row b => map (fun a => add a b) row) X y).
Proof.
  revert y. induction X as [|row X IH]; intros [|b y]; simpl; try done.
  by rewrite add1_single, IH.
Qed.

(** X13: [X + y] for [X] of shape (n, m): when [y] has m elements it is
    added to every row; when X has a row and the length of [y] is neither m
    nor 1 (and m is not 1), the shapes do not broadcast and a [ValueError]
    is raised. *)
Theorem plus_row_shapes n m (X : list (list F)) (y : list F) :
  @rect F n m X ->
  (length y = m ->
   plus_row add X y = Ok (map (fun row => zip_with add row y) X))
  /\ (1 <= n -> length y <> m -> length y <> 1 -> m <> 1 ->
      plus_row add X y = Raise ValueError).
Proof.
  intros HX. unfold plus_row, add2. rewrite broadcast_single_r. split.
  - intros Hy. apply mapM_pure. intros row Hrow. apply add1_same.
    destruct HX as [_ Hm]. rewrite Forall_forall in Hm. by rewrite (Hm _ Hrow).
  - intros Hn Hy Hy1 Hm1.
    destruct (rect_lookup n m X 0 HX) as (x0 & Hx0 & Hl0); [lia|].
    apply (mapM_head_raise _ _ x0); [done|].
    apply broadcast_mismatch; lia.
Qed.

(** X14: [X + y.reshape(-1, 1)] for [X] of shape (n, m): when [y] has n
    elements, [y[i]] is added to every cell of row i; when its length is
    neither n nor 1 (and n is not 1) a [ValueError] is raised. *)
Theorem plus_column_shapes n m (X : list (list F)) (y : list F) :
  @rect F n m X ->
  (length y = n ->
   plus_column add X y
   = Ok (zip_with (fun row b => map (fun a => add a b) row) X y))
  /\ (length y <> n -> length y <> 1 -> n <> 1 ->
      plus_column add X y = Raise ValueError).
Proof.
  intros [Hn Hm]. unfold plus_column, reshape_column. cbn [bind].
  rewrite reshape_column_rows. split.
  - intros Hy. unfold add2.
    rewrite broadcast_same by (rewrite length_map; lia).
    apply zipM_columns.
  - intros Hy Hy1 Hn1. apply broadcast_mismatch; rewrite ?length_map; lia.
Qed.

End CellsFacts.

(** ** The further theorems at concrete inputs *)

Lemma tall_matrix_rect : rect 3 2 tall_matrix.
Proof. split; [reflexivity | repeat constructor]. Defined.

Lemma rowwise_products_entries_witness :
  exists Z, @Rowwise.mult_vect float float64 two_points [5; 6]%float = Ok Z
            /\ @Rowwise.mult_loop_vect float float64 two_points [5; 6]%float = Ok Z
            /\ @Rowwise.mult_loop float float64 two_points [5; 6]%float = Ok Z
            /\ rect 2 2 Z
            /\ forall i j a b, entry two_points i j = Some a ->
                               [5; 6]%float !! j = Some b ->
                               entry Z i j = Some (PrimFloat.mul a b).
Proof.
  apply (@rowwise_products_entries float float64 2 2 two_points [5; 6]%float);
    [exact two_points_rect | reflexivity].
Defined.

Lemma rowwise_shape_mismatch_witness :
  @Rowwise.mult_vect float float64 tall_matrix three_numbers = Raise ValueError
  /\ @Rowwise.mult_loop_vect float float64 tall_matrix three_numbers
     = Raise ValueError
  /\ @Rowwise.mult_loop float float64 tall_matrix three_numbers
     = if decide (2 < length three_numbers)
       then Ok (map (fun row => zip_with PrimFloat.mul row three_numbers)
                    tall_matrix)
       else Raise IndexError.
Proof.
  apply (@rowwise_shape_mismatch float float64 3 2 tall_matrix three_numbers);
    [exact tall_matrix_rect | lia | lia | simpl; lia | simpl; lia].
Defined.

Lemma rowwise_scalar_broadcast_witness :
  @Rowwise.mult_vect float float64 tall_matrix [10%float]
  = Ok (map (map (fun a => PrimFloat.mul a 10)) tall_matrix)
  /\ @Rowwise.mult_loop_vect float float64 tall_matrix [10%float]
     = Ok (map (map (fun a => PrimFloat.mul a 10)) tall_matrix)
  /\ (1 <= 3 -> 2 <= 2 ->
      @Rowwise.mult_loop float float64 tall_matrix [10%float]
      = Raise IndexError).
Proof.
  apply (@rowwise_scalar_broadcast float float64 3 2 tall_matrix 10%float).
  exact tall_matrix_rect.
Defined.

Lemma degenerate_shapes_witness :
  @loop1 float float64 [[]; []] = Ok [[0; 0]; [0; 0]]%float
  /\ @loop2 float float64 [[]; []] = Ok [[0; 0]; [0; 0]]%float
  /\ @broadcast1 float float64 [[]; []] = Ok [[0; 0]; [0; 0]]%float
  /\ @broadcast2 float float64 [[]; []] = Ok [[0; 0]; [0; 0]]%float.
Proof.
  apply (@degenerate_shapes float float64 2 0 [[]; []]).
  - split; [reflexivity | repeat constructor].
  - right. reflexivity.
Defined.

Lemma loop2_entries_nonneg_witness :
  exists M, @loop2 float float64 two_points = Ok M
            /\ forall i j, i < 2 -> j < 2 ->
                 exists v, entry M i j = Some v /\ nonneg v /\ float_eq v v.
Proof.
  apply (loop2_entries_nonneg pow2_glibc sum_seq (fun _ => nan) 2 2 two_points);
    [exact sum_seq_nonneg | exact two_points_rect | exact two_points_finite].
Defined.

Lemma identical_rows_zero_witness :
  exists M, @loop2 float float64 [[1; 1]; [1; 1]]%float = Ok M
            /\ forall i j row, [[1; 1]; [1; 1]]%float !! i = Some row ->
                               [[1; 1]; [1; 1]]%float !! j = Some row ->
                               entry M i j = Some 0%float.
Proof.
  apply (identical_rows_zero pow2_glibc sum_seq (fun _ => nan) 2 2
           [[1; 1]; [1; 1]]%float);
    [exact sum_seq_zeros | split; [reflexivity | repeat constructor]
    | repeat constructor].
Defined.

Lemma pow2_glibc_even (t : float) : pow2_glibc (- t) = pow2_glibc t.
Proof.
  unfold pow2_glibc.
  assert (abs (- t) = abs t) as ->.
  { apply Prim2SF_inj. rewrite !abs_spec, opp_spec.
    by destruct (Prim2SF t). }
  assert ((- t) * (- t) = t * t)%float as ->; [|done].
  apply Prim2SF_inj. rewrite !mul_spec, opp_spec. apply SFmul_opp_opp.
Qed.

Lemma eucl_dist_symmetric_witness :
  @eucl_dist float float64 [0; 0]%float [3; 4]%float
  = @eucl_dist float float64 [3; 4]%float [0; 0]%float.
Proof.
  apply (eucl_dist_symmetric pow2_glibc sum_seq (fun _ => nan)
           [0; 0]%float [3; 4]%float); [exact pow2_glibc_even | reflexivity].
Defined.

Lemma plus_row_shapes_witness :
  (length three_numbers = 2 ->
   plus_row PrimFloat.add tall_matrix three_numbers
   = Ok (map (fun row => zip_with PrimFloat.add row three_numbers) tall_matrix))
  /\ (1 <= 3 -> length three_numbers <> 2 -> length three_numbers <> 1 ->
      2 <> 1 ->
      plus_row PrimFloat.add tall_matrix three_numbers = Raise ValueError).
Proof.
  apply (plus_row_shapes PrimFloat.add 3 2 tall_matrix three_numbers).
  exact tall_matrix_rect.
Defined.

Lemma plus_column_shapes_witness :
  (length three_numbers = 3 ->
   plus_column PrimFloat.add tall_matrix three_numbers
   = Ok (zip_with (fun row b => map (fun a => PrimFloat.add a b) row)
                  tall_matrix three_numbers))
  /\ (length three_numbers <> 3 -> length three_numbers <> 1 -> 3 <> 1 ->
      plus_column PrimFloat.add tall_matrix three_numbers = Raise ValueError).
Proof.
  apply (plus_column_shapes PrimFloat.add 3 2 tall_matrix three_numbers).
  exact tall_matrix_rect.
Defined.

(** The three broadcasting cells on the notebook's own numbers. *)
Example cells_evaluated :
  plus_row PrimFloat.add [[1; 2; 3]; [4; 5; 6]]%float three_numbers
  = Ok [[2; 7; 13]; [5; 10; 16]]%float
  /\ plus_row PrimFloat.add tall_matrix three_numbers = Raise ValueError
  /\ plus_column PrimFloat.add tall_matrix three_numbers
     = Ok [[2; 5]; [7; 10]; [13; 16]]%float.
Proof. repeat split; vm_compute; reflexivity. Qed.

(** ** The revised claims at concrete inputs *)

(** C1, as stated, fails: at 2.759 the C library's [pow] returns the number
    below the rounded square, and [loop1], which calls it, returns a matrix
    that differs from the matrix of [loop2] in the last bit. *)
Lemma loop1_differs_from_loop2 :
  @loop1 float float64 last_bit_points
  = Ok [[0; 0x1.29716381294bcp+2]; [0x1.29716381294bcp+2; 0]]%float
  /\ @loop2 float float64 last_bit_points
     = Ok [[0; 0x1.29716381294bdp+2]; [0x1.29716381294bdp+2; 0]]%float
  /\ @loop1 float float64 last_bit_points
     <> @loop2 float float64 last_bit_points.
Proof.
  assert (@loop1 float float64 last_bit_points
          = Ok [[0; 0x1.29716381294bcp+2]; [0x1.29716381294bcp+2; 0]]%float)
    as H1 by (vm_compute; reflexivity).
  assert (@loop2 float float64 last_bit_points
          = Ok [[0; 0x1.29716381294bdp+2]; [0x1.29716381294bdp+2; 0]]%float)
    as H2 by (vm_compute; reflexivity).
  split; [exact H1|]. split; [exact H2|].
  rewrite H1, H2. intros Heq.
  assert (0x1.29716381294bcp+2 = 0x1.29716381294bdp+2)%float as Hf
    by congruence.
  apply (f_equal Prim2SF) in Hf. vm_compute in Hf. discriminate Hf.
Qed.

(** Where the squares are [float64] numbers the two powers agree, and
    [loop1] returns the matrix of the other three. *)
Example scenario_two_points_loop1 :
  @loop1 float float64 two_points = Ok [[0; 5]; [5; 0]]%float.
Proof. vm_compute. reflexivity. Qed.

Section Exactness.
Local Open Scope R_scope.

Lemma SF2R_scaled (m : positive) (e z : Z) :
  (e <= 0)%Z -> Zpos m = (z * 2 ^ (- e))%Z ->
  SF2R (S754_finite false m e) = IZR z.
Proof.
  intros He Hm. unfold SF2R, cond_Zopp. rewrite Hm, mult_IZR.
  rewrite <- powerRZ_2_nat by lia.
  rewrite Rmult_assoc, <- powerRZ_add by lra.
  replace (- e + e)%Z with 0%Z by lia. simpl. lra.
Qed.

Lemma F2R_0 : F2R 0 = 0.
Proof. reflexivity. Qed.

Lemma F2R_1 : F2R 1 = 1.
Proof.
  unfold F2R.
  replace (Prim2SF 1) with (S754_finite false 4503599627370496 (-52))
    by (vm_compute; reflexivity).
  by apply SF2R_scaled.
Qed.

Lemma F2R_2 : F2R 2 = 2.
Proof.
  unfold F2R.
  replace (Prim2SF 2) with (S754_finite false 4503599627370496 (-51))
    by (vm_compute; reflexivity).
  by apply SF2R_scaled.
Qed.

Lemma F2R_3 : F2R 3 = 3.
Proof.
  unfold F2R.
  replace (Prim2SF 3) with (S754_finite false 6755399441055744 (-51))
    by (vm_compute; reflexivity).
  by apply SF2R_scaled.
Qed.

Lemma exact_dist_line (u v : float) (r : R) :
  0 <= r -> F2R u - F2R v = r \/ F2R u - F2R v = - r ->
  exact_dist [u] [v] = r.
Proof.
  intros Hr Huv. unfold exact_dist, reals. rewrite Rdist_unfold.
  simpl. unfold Rsum, sqdiff. simpl.
  replace (0 + (F2R u - F2R v) * (F2R u - F2R v)) with (r * r)
    by (destruct Huv as [-> | ->]; ring).
  by apply sqrt_square.
Qed.

(** The triple (0, 1, 2) of [line_points] is computed without rounding. *)
Lemma line_points_exact :
  computed_exactly line_points [[0; 1; 3]; [1; 0; 2]; [3; 2; 0]]%float 0 1 2.
Proof.
  exists [0%float], [1%float], [3%float], 3%float, 1%float, 2%float.
  repeat split; try reflexivity.
  - rewrite F2R_3. symmetry. apply exact_dist_line; [lra|].
    right. rewrite F2R_0, F2R_3. lra.
  - rewrite F2R_1. symmetry. apply exact_dist_line; [lra|].
    right. rewrite F2R_0, F2R_1. lra.
  - rewrite F2R_2. symmetry. apply exact_dist_line; [lra|].
    right. rewrite F2R_1, F2R_3. lra.
  - change (1 + 2)%float with 3%float. rewrite F2R_1, F2R_2, F2R_3. lra.
Qed.

End Exactness.



(** The inequality also fails by overflow ... *)
Example triangle_fails_on_overflow :
  exists M, @loop2 float float64 overflow_points = Ok M
            /\ ~ triangle_inequality float_le PrimFloat.add 3 M.
Proof.
  eexists. split; [vm_compute; reflexivity|].
  intros Htri.
  specialize (Htri 0 1 2 ltac:(lia) ltac:(lia) ltac:(lia) _ _ _
                   eq_refl eq_refl eq_refl).
  vm_compute in Htri. discriminate Htri.
Qed.

(** ... and by rounding in the last bit, far from underflow and overflow. *)
Example triangle_fails_on_rounding :
  exists M, @loop2 float float64 rounding_points = Ok M
            /\ ~ triangle_inequality float_le PrimFloat.add 3 M.
Proof.
  eexists. split; [vm_compute; reflexivity|].
  intros Htri.
  specialize (Htri 0 1 2 ltac:(lia) ltac:(lia) ltac:(lia) _ _ _
                   eq_refl eq_refl eq_refl).
  vm_compute in Htri. discriminate Htri.
Qed.
